(** * config-fs-utils: a shallow embedding of [src/index.js]

    The module is a thin layer of asynchronous helpers over Node's
    [fs.promises], [path] and [os] built-ins.  The embedding keeps that
    shape:

    - JavaScript strings are [string]; option objects are finite maps from
      property names to JavaScript values; objects that are iterated with
      [Object.entries] are the list of their entries in enumeration order,
      which [Object_entries] computes from the order of insertion;
    - the [path] built-in (POSIX flavour) is written out in [Module path];
    - [fs.promises] and the clock are an interface ([NodeFs]) over an
      abstract world, so every statement about the helpers holds for any
      behaviour of the underlying file system;
    - an [async] function is a computation in a state-and-exception monad
      that also records the sequence of primitive calls it performed;
    - [Module MemFs] is an in-memory file system with fault injection, used
      to run the helpers on concrete inputs. *)

From Stdlib Require Import ZArith Ascii String List Sorted.
From stdpp Require Import base option list gmap strings.

Open Scope string_scope.
Open Scope list_scope.

(** ** JavaScript strings *)

Module JsString.

(** [s.startsWith(p)] *)
Fixpoint startsWith (p s : string) : bool :=
  match p, s with
  | EmptyString, _ => true
  | String a p', String b s' => if Ascii.eqb a b then startsWith p' s' else false
  | String _ _, EmptyString => false
  end.

(** [s.slice(n)] for a non-negative [n] *)
Fixpoint slice (n : nat) (s : string) : string :=
  match n, s with
  | O, _ => s
  | S n', String _ s' => slice n' s'
  | S _, EmptyString => EmptyString
  end.

(** [s.slice(0, n)] for a non-negative [n] *)
Fixpoint take (n : nat) (s : string) : string :=
  match n, s with
  | O, _ => EmptyString
  | S n', String a s' => String a (take n' s')
  | S _, EmptyString => EmptyString
  end.

(** [s.charCodeAt(i) === c]; false when [i] is out of range *)
Definition charIs (c : ascii) (s : string) (i : nat) : bool :=
  match String.get i s with
  | Some a => Ascii.eqb a c
  | None => false
  end.

Definition map (f : ascii -> ascii) : string -> string :=
  fix go s :=
    match s with
    | EmptyString => EmptyString
    | String a s' => String (f a) (go s')
    end.

(** One character of [toLowerCase]: the letters A..Z move to a..z.  Every
    other byte is kept; a non-ASCII character never lower-cases to the
    ASCII letters the marker names below are made of. *)
Definition lowerChar (a : ascii) : ascii :=
  let n := nat_of_ascii a in
  if (65 <=? n)%nat && (n <=? 90)%nat then ascii_of_nat (n + 32) else a.

Definition toLowerCase : string -> string := map lowerChar.

(** [s.replace(/[:.]/g, "-")] *)
Definition hyphenate (a : ascii) : ascii :=
  if Ascii.eqb a ":" || Ascii.eqb a "." then "-"%char else a.

Definition replaceColonDot : string -> string := map hyphenate.

(** [s.split("/")] *)
Fixpoint splitSlash (s : string) : list string :=
  match s with
  | EmptyString => [EmptyString]
  | String a s' =>
      if Ascii.eqb a "/" then EmptyString :: splitSlash s'
      else match splitSlash s' with
           | seg :: rest => String a seg :: rest
           | [] => [String a EmptyString]
           end
  end.

(** [segs.join("/")] *)
Fixpoint joinSlash (segs : list string) : string :=
  match segs with
  | [] => EmptyString
  | [seg] => seg
  | seg :: rest => seg +:+ "/" +:+ joinSlash rest
  end.

End JsString.

(** ** Node's [path] built-in, POSIX flavour *)

Module path.

Definition isAbsolute (p : string) : bool := JsString.charIs "/" p 0.

Definition trailingSeparator (p : string) : bool :=
  JsString.charIs "/" p (String.length p - 1).

(** [normalizeString]: the segments between separators are pushed on a
    stack (kept here most recent first); empty and ["."] segments are
    dropped, [".."] pops a segment, or is kept when nothing can be popped
    and the path is relative. *)
Definition normalizeStep (allowAboveRoot : bool) (stack : list string)
    (seg : string) : list string :=
  if String.eqb seg "" || String.eqb seg "." then stack
  else if String.eqb seg ".." then
    match stack with
    | top :: below =>
        if String.eqb top ".." then
          (if allowAboveRoot then seg :: stack else stack)
        else below
    | [] => if allowAboveRoot then [seg] else []
    end
  else seg :: stack.

Definition normalizeString (p : string) (allowAboveRoot : bool) : string :=
  JsString.joinSlash
    (rev (fold_left (normalizeStep allowAboveRoot) (JsString.splitSlash p) [])).

Definition normalize (p : string) : string :=
  if String.eqb p "" then "."
  else
    let body := normalizeString p (negb (isAbsolute p)) in
    if String.eqb body "" then
      (if isAbsolute p then "/" else if trailingSeparator p then "./" else ".")
    else
      let body := if trailingSeparator p then body +:+ "/" else body in
      if isAbsolute p then "/" +:+ body else body.

(** [path.join(...args)]: the non-empty arguments are glued with the
    separator and the result is normalized. *)
Definition join (args : list string) : string :=
  match filter (fun a => a ≠ "") args with
  | [] => "."
  | parts => normalize (JsString.joinSlash parts)
  end.

(** The backwards scan of [path.dirname]: positions [i], [i-1], ..., [1]
    are visited; the scan stops at the first separator that follows (from
    the right) a character that is not a separator. *)
Fixpoint dirnameScan (p : string) (i : nat) (matchedSlash : bool) : option nat :=
  match i with
  | O => None
  | S j =>
      if JsString.charIs "/" p i then
        (if matchedSlash then dirnameScan p j matchedSlash else Some i)
      else dirnameScan p j false
  end.

Definition dirname (p : string) : string :=
  if String.eqb p "" then "."
  else
    match dirnameScan p (String.length p - 1) true with
    | None => if isAbsolute p then "/" else "."
    | Some e =>
        if isAbsolute p && (e =? 1)%nat then "//" else JsString.take e p
    end.

End path.

(** ** [expandHome] *)

(** [home] is the value of [os.homedir()]. *)
Definition expandHome (home : string) (filepath : string) : string :=
  if JsString.startsWith "~/" filepath || String.eqb filepath "~" then
    path.join [home; JsString.slice 2 filepath]
  else filepath.

(** ** JavaScript values and option objects *)

Inductive jsval :=
| JUndefined
| JNull
| JBool (b : bool)
| JNum (n : Z)
| JStr (s : string).

(** [if (v)]: JavaScript truthiness. *)
Definition truthy (v : jsval) : bool :=
  match v with
  | JUndefined | JNull => false
  | JBool b => b
  | JNum n => negb (n =? 0)%Z
  | JStr s => negb (String.eqb s "")
  end.

(** [v !== undefined] *)
Definition isDefined (v : jsval) : bool :=
  match v with
  | JUndefined => false
  | _ => true
  end.

(** The literal [0o600]. *)
Definition mode_600 : Z := 6 * 64.

(** An options object: its own properties, by name. *)
Abbreviation object := (gmap string jsval).

(** [o.name]: a missing property reads as [undefined]. *)
Definition prop (o : object) (name : string) : jsval :=
  default JUndefined (o !! name).

(** [{ ...base, ...over }]: properties of [over] win, whatever their value. *)
Definition spread (base over : object) : object := over ∪ base.

(** ** The file-system primitives *)

Inductive errno :=
| ENOENT | EACCES | EEXIST | ENOTDIR | EISDIR | ENOSPC | EPERM | EINVAL.

Inductive result (A : Type) :=
| Ok (a : A)
| Err (e : errno).
Arguments Ok {A} a.
Arguments Err {A} e.

Record Stats := {
  st_isFile : bool;
  st_isDirectory : bool;
  st_mode : Z;
  st_size : nat;
}.

(** The calls the module makes into Node:
    [fs.mkdir(dir, { recursive: true })], [fs.access(p)],
    [fs.copyFile(src, dest)], [fs.writeFile(p, content, "utf8")],
    [fs.chmod(p, mode)], [fs.stat(p)] and [new Date().toISOString()]. *)
Inductive call :=
| Mkdir (dir : string)
| Access (p : string)
| CopyFile (src dest : string)
| WriteFile (p content : string)
| Chmod (p : string) (mode : jsval)
| Stat (p : string)
| Now.

(** What Node does for each call, over a world [W] of which nothing is
    assumed: a call may fail or succeed, and may change the world either
    way. *)
Class NodeFs (W : Type) := {
  fs_mkdir : string -> W -> result unit * W;
  fs_access : string -> W -> result unit * W;
  fs_copyFile : string -> string -> W -> result unit * W;
  fs_writeFile : string -> string -> W -> result unit * W;
  fs_chmod : string -> jsval -> W -> result unit * W;
  fs_stat : string -> W -> result Stats * W;
  date_toISOString : W -> string * W;
}.

(** ** Asynchronous computations *)

(** Running a computation from a world yields the primitive calls made, in
    order, the value returned or the error thrown, and the world left
    behind. *)
Record outcome (W A : Type) := Outcome {
  trace : list call;
  value : result A;
  after : W;
}.
Arguments Outcome {W A} trace value after.
Arguments trace {W A} o.
Arguments value {W A} o.
Arguments after {W A} o.

Definition M (W A : Type) : Type := W -> outcome W A.

Section Monad.
Context {W : Type}.

(** [return a] *)
Definition ret {A} (a : A) : M W A := fun w => Outcome [] (Ok a) w.

(** [const x = await m; k(x)]: an error thrown by [m] skips [k]. *)
Definition bind {A B} (m : M W A) (k : A -> M W B) : M W B :=
  fun w =>
    let o := m w in
    match value o with
    | Ok a =>
        let o' := k a (after o) in
        Outcome (trace o ++ trace o') (value o') (after o')
    | Err e => Outcome (trace o) (Err e) (after o)
    end.

(** [try { m } catch (error) { h(error) }] *)
Definition try_catch {A} (m : M W A) (h : errno -> M W A) : M W A :=
  fun w =>
    let o := m w in
    match value o with
    | Ok a => o
    | Err e =>
        let o' := h e (after o) in
        Outcome (trace o ++ trace o') (value o') (after o')
    end.

(** The loop
    [for (const x of xs) { const r = await body(x); results.push(r); }]
    followed by [return results]; [results] is the array built so far. *)
Fixpoint for_push {X R} (body : X -> M W R) (xs : list X)
    (results : list R) : M W (list R) :=
  match xs with
  | [] => ret results
  | x :: rest =>
      bind (body x) (fun r => for_push body rest (results ++ [r]))
  end.

(** One primitive call, recorded in the trace. *)
Definition perform {A} (c : call) (op : W -> result A * W) : M W A :=
  fun w => let (r, w') := op w in Outcome [c] r w'.

End Monad.

Notation "'await' x := m 'in' k" := (bind m (fun x => k))
  (at level 10, x name, m at level 100, k at level 200, only parsing).

(** The [fs.promises] methods and the clock as computations. *)
Module fs.
Section Calls.
Context {W : Type} `{NodeFs W}.

Definition mkdir (dir : string) : M W unit :=
  perform (Mkdir dir) (fs_mkdir dir).
Definition access (p : string) : M W unit :=
  perform (Access p) (fs_access p).
Definition copyFile (src dest : string) : M W unit :=
  perform (CopyFile src dest) (fs_copyFile src dest).
Definition writeFile (p content : string) : M W unit :=
  perform (WriteFile p content) (fs_writeFile p content).
Definition chmod (p : string) (mode : jsval) : M W unit :=
  perform (Chmod p mode) (fs_chmod p mode).
Definition stat (p : string) : M W Stats :=
  perform (Stat p) (fs_stat p).
Definition toISOString : M W string :=
  perform Now (fun w => let (s, w') := date_toISOString w in (Ok s, w')).
End Calls.
End fs.

(** ** The helpers of [src/index.js] *)

(** The object [writeFile] resolves to: [{ path, backup, created }], with
    [None] for a [null] backup. *)
Record WriteResult := {
  r_path : string;
  r_backup : option string;
  r_created : bool;
}.

Section Helpers.
Context {W : Type} `{NodeFs W}.
Variable home : string.

Definition ensureDirectory (dir : string) : M W string :=
  let expandedDir := expandHome home dir in
  await _ := fs.mkdir expandedDir in
  ret expandedDir.

Definition ensureDirectories (dirs : list string) : M W (list string) :=
  for_push ensureDirectory dirs [].

Definition backupFile (filepath : string) : M W (option string) :=
  let expandedPath := expandHome home filepath in
  try_catch
    (await _ := fs.access expandedPath in
     await iso := fs.toISOString in
     let timestamp := JsString.replaceColonDot iso in
     let backupPath := expandedPath +:+ ".backup-" +:+ timestamp in
     await _ := fs.copyFile expandedPath backupPath in
     ret (Some backupPath))
    (fun _ => ret None).

Definition writeFile (filepath content : string) (options : object)
    : M W WriteResult :=
  let expandedPath := expandHome home filepath in
  let dir := path.dirname expandedPath in
  await _ := ensureDirectory dir in
  await backupPath :=
    (if truthy (prop options "backup") then backupFile expandedPath
     else ret None) in
  await _ := fs.writeFile expandedPath content in
  await _ :=
    (if isDefined (prop options "permissions")
     then fs.chmod expandedPath (prop options "permissions")
     else ret tt) in
  ret {| r_path := expandedPath;
         r_backup := backupPath;
         r_created := bool_decide (backupPath = None) |}.

(** [files] is [Object.entries(files)]. *)
Definition writeFiles (files : list (string * string)) (options : object)
    : M W (list WriteResult) :=
  for_push
    (fun entry => let '(filepath, content) := entry in
                  writeFile filepath content options)
    files [].

Definition writeConfigFiles (files : list (string * string))
    (options : object) : M W (list WriteResult) :=
  let defaultOptions :=
    spread {[ "backup" := JBool true; "permissions" := JNum mode_600 ]}
      options in
  writeFiles files defaultOptions.

Definition exists_ (filepath : string) : M W bool :=
  let expandedPath := expandHome home filepath in
  try_catch
    (await _ := fs.access expandedPath in ret true)
    (fun _ => ret false).

Definition getStats (filepath : string) : M W (option Stats) :=
  let expandedPath := expandHome home filepath in
  try_catch
    (await stats := fs.stat expandedPath in ret (Some stats))
    (fun _ => ret None).

Definition fileKeys : list string := ["accountmuttrc"; "mainmuttrc"].

(** [fileKeys.includes(k)] *)
Definition includes (keys : list string) (k : string) : bool :=
  existsb (String.eqb k) keys.

(** [dirs.add(d)] on a [Set], kept in insertion order as
    [Array.from(dirs)] lists it. *)
Definition Set_add (d : string) (dirs : list string) : list string :=
  if bool_decide (d ∈ dirs) then dirs else dirs ++ [d].

(** The loop over [Object.entries(paths)] that fills [dirs]. *)
Fixpoint collectDirs (entries : list (string * string))
    (dirs : list string) : list string :=
  match entries with
  | [] => dirs
  | (key, filepath) :: rest =>
      let expandedPath := expandHome home filepath in
      let normalizedKey := JsString.toLowerCase key in
      if includes fileKeys normalizedKey then
        let dir := path.dirname expandedPath in
        collectDirs rest (Set_add dir dirs)
      else
        collectDirs rest (Set_add expandedPath dirs)
  end.

Definition ensureDirectoriesFromPaths (paths : list (string * string))
    : M W (list string) :=
  ensureDirectories (collectDirs paths []).

End Helpers.

(** The calls a [writeFile] that runs to its end performs, in order:
    directory creation, then the calls of the backup step, then the content
    write, then the permission set when one was asked for. *)
Definition writePlan (dir p content : string) (options : object)
    (backupCalls : list call) : list call :=
  Mkdir dir :: backupCalls ++
  WriteFile p content ::
  (if isDefined (prop options "permissions")
   then [Chmod p (prop options "permissions")]
   else []).

(** ** An in-memory file system *)

(** A world the helpers can be run in: regular files with content and
    permission bits, a set of directories, a clock, and the failures the
    platform decides to raise whatever the state of the tree (permission
    denied, disk full, ...), given per call.  Paths name a file or directory
    as written; the helpers only hand normalized paths to it in the runs
    below. *)
Module MemFs.

Record file := File {
  content : string;
  mode : Z;
}.

Record world := World {
  files : gmap string file;
  dirs : gset string;
  clock : string;
  fault : call -> option errno;
}.

(** [p] and its ancestors, up to the root or the current directory. *)
Fixpoint lineage (fuel : nat) (p : string) : list string :=
  match fuel with
  | O => [p]
  | S fuel' =>
      let d := path.dirname p in
      if String.eqb d p then [p] else p :: lineage fuel' d
  end.

Definition ancestors (p : string) : list string :=
  lineage (String.length p) p.

Definition present (w : world) (p : string) : bool :=
  bool_decide (is_Some (files w !! p)) || bool_decide (p ∈ dirs w).

Definition guarded {A} (c : call) (w : world)
    (run : result A * world) : result A * world :=
  match fault w c with
  | Some e => (Err e, w)
  | None => run
  end.

Definition put (p : string) (f : file) (w : world) : world :=
  World (<[p := f]> (files w)) (dirs w) (clock w) (fault w).

Definition mkdir (dir : string) (w : world) : result unit * world :=
  guarded (Mkdir dir) w
    (if bool_decide (is_Some (files w !! dir)) then (Err EEXIST, w)
     else if existsb (fun a => bool_decide (is_Some (files w !! a)))
               (ancestors dir)
     then (Err ENOTDIR, w)
     else (Ok tt,
           World (files w) (dirs w ∪ list_to_set (ancestors dir))
             (clock w) (fault w))).

Definition access (p : string) (w : world) : result unit * world :=
  guarded (Access p) w
    (if present w p then (Ok tt, w) else (Err ENOENT, w)).

Definition copyFile (src dest : string) (w : world) : result unit * world :=
  guarded (CopyFile src dest) w
    (match files w !! src with
     | Some f =>
         if bool_decide (dest ∈ dirs w) then (Err EISDIR, w)
         else if bool_decide (path.dirname dest ∈ dirs w)
         then (Ok tt, put dest f w)
         else (Err ENOENT, w)
     | None =>
         if bool_decide (src ∈ dirs w) then (Err EISDIR, w)
         else (Err ENOENT, w)
     end).

Definition writeFile (p data : string) (w : world) : result unit * world :=
  guarded (WriteFile p data) w
    (if bool_decide (p ∈ dirs w) then (Err EISDIR, w)
     else if bool_decide (path.dirname p ∈ dirs w)
     then (Ok tt,
           put p (File data (from_option mode (6 * 64 + 4 * 8 + 4)%Z
                               (files w !! p))) w)
     else (Err ENOENT, w)).

(** The argument check of [fs.chmod]: a mode is an integer that fits 32
    unsigned bits, or a string of octal digits that denotes one. *)
Definition octalDigit (a : ascii) : option Z :=
  let n := Z.of_N (N_of_ascii a) in
  if (48 <=? n)%Z && (n <=? 55)%Z then Some (n - 48)%Z else None.

Fixpoint parseOctal (s : string) (acc : Z) : option Z :=
  match s with
  | EmptyString => Some acc
  | String a s' =>
      match octalDigit a with
      | Some d => parseOctal s' (8 * acc + d)%Z
      | None => None
      end
  end.

Definition uint32 (n : Z) : option Z :=
  if (0 <=? n)%Z && (n <=? 4294967295)%Z then Some n else None.

Definition parseFileMode (m : jsval) : option Z :=
  match m with
  | JNum n => uint32 n
  | JStr s =>
      if String.eqb s "" then None
      else match parseOctal s 0 with
           | Some n => uint32 n
           | None => None
           end
  | _ => None
  end.

(** The literal [0o7777]: the permission bits of a mode. *)
Definition modeMask : Z := 7 * 512 + 511.

(** A mode that does not pass the argument check is refused before the
    file system is touched; of a mode that passes, the file keeps the low
    twelve bits. *)
Definition chmod (p : string) (m : jsval) (w : world) : result unit * world :=
  match parseFileMode m with
  | None => (Err EINVAL, w)
  | Some bits =>
      guarded (Chmod p m) w
        (match files w !! p with
         | Some f =>
             (Ok tt, put p (File (content f) (Z.land bits modeMask)) w)
         | None =>
             if bool_decide (p ∈ dirs w) then (Ok tt, w) else (Err ENOENT, w)
         end)
  end.

Definition stat (p : string) (w : world) : result Stats * world :=
  guarded (Stat p) w
    (match files w !! p with
     | Some f =>
         (Ok {| st_isFile := true; st_isDirectory := false;
                st_mode := mode f; st_size := String.length (content f) |}, w)
     | None =>
         if bool_decide (p ∈ dirs w)
         then (Ok {| st_isFile := false; st_isDirectory := true;
                     st_mode := (7 * 64 + 5 * 8 + 5)%Z; st_size := 0 |}, w)
         else (Err ENOENT, w)
     end).

#[global] Instance node : NodeFs world := {
  fs_mkdir := mkdir;
  fs_access := access;
  fs_copyFile := copyFile;
  fs_writeFile := writeFile;
  fs_chmod := chmod;
  fs_stat := stat;
  date_toISOString := fun w => (clock w, w);
}.

(** No injected failure. *)
Definition healthy : call -> option errno := fun _ => None.

(** The given call is refused with the given error. *)
Definition refusing (c : call -> bool) (e : errno) : call -> option errno :=
  fun c' => if c c' then Some e else None.

End MemFs.

(** ** Sample worlds *)

Module Samples.
Import MemFs.

Definition home : string := "/home/user".
Definition stamp : string := "2026-01-26T12:34:56.789Z".
Definition conf : string := "/etc/app/app.conf".
Definition conf_backup : string :=
  "/etc/app/app.conf.backup-2026-01-26T12-34-56-789Z".

Definition mode_644 : Z := 6 * 64 + 4 * 8 + 4.
Definition mode_200 : Z := 2 * 64.

Definition isCopy (c : call) : bool :=
  match c with
  | CopyFile _ _ => true
  | _ => false
  end.

Definition isAccess (c : call) : bool :=
  match c with
  | Access _ => true
  | _ => false
  end.

Definition isStat (c : call) : bool :=
  match c with
  | Stat _ => true
  | _ => false
  end.

Definition etc_app : gset string := {[ "/"; "/etc"; "/etc/app" ]}.

(** An empty [/etc/app]. *)
Definition empty_dir : world := World ∅ etc_app stamp healthy.

(** [/etc/app/app.conf] holds [x=1]; every call is served. *)
Definition installed : world :=
  World {[ conf := File "x=1" mode_644 ]} etc_app stamp healthy.

(** The same file, writable but not readable by the process: copying it
    is refused. *)
Definition unreadable : world :=
  World {[ conf := File "x=1" mode_200 ]} etc_app stamp
    (refusing isCopy EACCES).

(** The same file on a volume with no free block left for a copy. *)
Definition no_space : world :=
  World {[ conf := File "x=1" mode_644 ]} etc_app stamp
    (refusing isCopy ENOSPC).

(** A backup of the same instant is already there. *)
Definition collided : world :=
  World {[ conf := File "x=1" mode_644;
           conf_backup := File "x=0" mode_644 ]} etc_app stamp healthy.

(** The directory [/etc/app] cannot be searched: existence checks and
    stat calls are refused although the file is there. *)
Definition locked : world :=
  World {[ conf := File "x=1" mode_644 ]} etc_app stamp
    (fun c => if isAccess c || isStat c then Some EACCES else None).

(** [/srv/etc] is a regular file, so nothing can be created under it. *)
Definition blocked : world :=
  World {[ "/srv/etc" := File "" mode_644 ]} {[ "/"; "/srv" ]} stamp healthy.

End Samples.

(** ** Vocabulary of the specification *)

(** The defaults of the config-file entry point: [backup] true and
    [permissions] [0o600]. *)
Definition configDefaults : object :=
  {[ "backup" := JBool true; "permissions" := JNum mode_600 ]}.

(** [merged] is the shallow merge of [over] over [defaults]: field by field,
    a field [over] supplies is taken from [over], any other from
    [defaults]. *)
Definition shallowMerge (defaults over merged : object) : Prop :=
  forall name,
    merged !! name =
      match over !! name with
      | Some v => Some v
      | None => defaults !! name
      end.

(** Two key names that differ at most in the case of their letters. *)
Definition sameIgnoringCase (a b : string) : Prop :=
  JsString.toLowerCase a = JsString.toLowerCase b.

(** The key matches one of the file-marker names, case-insensitively. *)
Definition namesFile (key : string) : Prop :=
  exists marker, marker ∈ fileKeys /\ sameIgnoringCase key marker.

(** ** Objects as [Object.entries] lists them *)

(** An object with string values: its own properties in the order they were
    inserted, each key once. *)
Abbreviation jsobject := (list (string * string)).

Definition decimalDigit (a : ascii) : option N :=
  let n := N_of_ascii a in
  if (48 <=? n)%N && (n <=? 57)%N then Some (n - 48)%N else None.

Fixpoint parseDecimal (s : string) (acc : N) : option N :=
  match s with
  | EmptyString => Some acc
  | String a s' =>
      match decimalDigit a with
      | Some d => parseDecimal s' (10 * acc + d)%N
      | None => None
      end
  end.

(** A key is an array index when it is the canonical decimal writing of an
    integer from 0 to 2^32 - 2. *)
Definition arrayIndex (key : string) : option N :=
  match key with
  | EmptyString => None
  | String a rest =>
      if Ascii.eqb a "0" && negb (String.eqb rest "") then None
      else match parseDecimal key 0 with
           | Some n => if (n <=? 4294967294)%N then Some n else None
           | None => None
           end
  end.

Definition insertByIndex (e : N * (string * string))
    : list (N * (string * string)) -> list (N * (string * string)) :=
  fix go l :=
    match l with
    | [] => [e]
    | e' :: l' => if (fst e <? fst e')%N then e :: l else e' :: go l'
    end.

Definition sortByIndex (l : list (N * (string * string)))
    : list (N * (string * string)) :=
  foldr insertByIndex [] l.

(** [Object.entries(o)]: the entries whose key is an array index come
    first, by ascending index; the other entries follow in insertion
    order. *)
Definition Object_entries (o : jsobject) : list (string * string) :=
  map snd
    (sortByIndex
       (omap (fun e => (fun n => (n, e)) <$> arrayIndex (fst e)) o)) ++
  filter (fun e => arrayIndex (fst e) = None) o.

Section Batches.
Context {W : Type} `{NodeFs W}.
Variable home : string.

(** [writeFiles] on the object itself. *)
Definition writeFilesObject (files : jsobject) (options : object)
    : M W (list WriteResult) :=
  writeFiles home (Object_entries files) options.

(** The reference reading of a batch, against which the loops of
    [ensureDirectories] and [writeFiles] are compared: the items taken one
    after the other, each from the world the one before it left.  It gives
    the calls they make, in order, and the world the last one leaves, as
    long as each of them succeeds. *)
Fixpoint oneAfterTheOther {X R} (body : X -> M W R) (xs : list X) (w : W)
    : option (list call * W) :=
  match xs with
  | [] => Some ([], w)
  | x :: rest =>
      match value (body x w) with
      | Ok _ =>
          match oneAfterTheOther body rest (after (body x w)) with
          | Some (calls, w') => Some (trace (body x w) ++ calls, w')
          | None => None
          end
      | Err _ => None
      end
  end.

End Batches.

(** ** The directory layout helper *)

Definition STANDARD_MUTT_DIRS : list string :=
  [".config/mutt";
   ".config/mutt/accounts";
   ".local/etc/oauth-tokens";
   ".cache/mutt/headers";
   ".cache/mutt/bodies"].

(** The object [setupStandardMuttDirs] resolves to.  A field is [None] when
    the element of [created] it reads is [undefined]. *)
Record MuttDirs := {
  config : option string;
  accounts : option string;
  tokens : option string;
  cacheHeaders : option string;
  cacheBodies : option string;
}.

Section Layout.
Context {W : Type} `{NodeFs W}.
Variable home : string.

(** [baseDir] is [options.baseDir], a string when it is given (its
    documented type) and [None] when it is left out.  In
    [options.baseDir || "~"] the empty string is falsy like [undefined]. *)
Definition setupStandardMuttDirs (baseDir : option string) : M W MuttDirs :=
  let baseDir :=
    match baseDir with
    | Some s => if String.eqb s "" then "~" else s
    | None => "~"
    end in
  let dirs := map (fun dir => path.join [baseDir; dir]) STANDARD_MUTT_DIRS in
  await created := ensureDirectories home dirs in
  ret {| config := created !! 0%nat;
         accounts := created !! 1%nat;
         tokens := created !! 2%nat;
         cacheHeaders := created !! 3%nat;
         cacheBodies := created !! 4%nat |}.

End Layout.

(** ** Kinds of calls *)

(** The calls only the backup step makes. *)
Definition isBackupCall (c : call) : bool :=
  match c with
  | Access _ | CopyFile _ _ | Now => true
  | _ => false
  end.

Definition isChmodCall (c : call) : bool :=
  match c with
  | Chmod _ _ => true
  | _ => false
  end.

(** * Properties *)

(** ** Strings and paths *)

Example expandHome_nested :
  expandHome "/home/user" "~/a/b" = "/home/user/a/b".
Proof. reflexivity. Qed.

Example expandHome_alone : expandHome "/home/user" "~" = "/home/user".
Proof. reflexivity. Qed.

Example dirname_samples :
  path.dirname "/a/b/c.txt" = "/a/b" /\ path.dirname "c.txt" = "." /\
  path.dirname "/c.txt" = "/" /\ path.dirname "a//b" = "a/" /\
  path.dirname "/a/b/" = "/a" /\ path.dirname "//a" = "//".
Proof. repeat split; reflexivity. Qed.

Example join_samples :
  path.join ["~"; ".config/mutt"] = "~/.config/mutt" /\
  path.join ["/home/u/"; ""] = "/home/u/" /\
  path.join ["/a/b"; "../c/./d//e/"] = "/a/c/d/e/" /\
  path.join ["a"; "../../b"] = "../b" /\
  path.join [""; ""] = ".".
Proof. repeat split; reflexivity. Qed.

Example timestamp_sample :
  JsString.replaceColonDot "2026-01-26T12:34:56.789Z"
    = "2026-01-26T12-34-56-789Z".
Proof. reflexivity. Qed.

(** The timestamp of a backup name keeps its length and holds no colon and
    no period. *)
Lemma replaceColonDot_clean (s : string) (i : nat) (c : ascii) :
  String.get i (JsString.replaceColonDot s) = Some c ->
  c <> ":"%char /\ c <> "."%char.
Proof.
  revert i. induction s as [|a s IH]; intros i; [done|].
  destruct i as [|i]; [|apply IH].
  cbn. unfold JsString.hyphenate. intros [= <-].
  destruct (Ascii.eqb_spec a ":") as [->|Hcolon]; [done|].
  destruct (Ascii.eqb_spec a ".") as [->|Hdot]; done.
Qed.

Lemma replaceColonDot_length (s : string) :
  String.length (JsString.replaceColonDot s) = String.length s.
Proof. induction s as [|a s IH]; [done|]. cbn. by rewrite <- IH. Qed.

Lemma startsWith_app (p t : string) : JsString.startsWith p (p +:+ t) = true.
Proof.
  induction p as [|a p IH]; simpl; [done|].
  by rewrite Ascii.eqb_refl.
Qed.

Lemma startsWith_inv (p s : string) :
  JsString.startsWith p s = true -> exists t, s = p +:+ t.
Proof.
  revert s. induction p as [|a p IH]; intros s Hs; simpl in *.
  - by exists s.
  - destruct s as [|b s]; [done|].
    destruct (Ascii.eqb_spec a b) as [->|]; [|done].
    destruct (IH _ Hs) as [t ->]. by exists t.
Qed.

(** The trailing separator of a path, read from its characters. *)
Lemma trailingSeparator_cons (a : ascii) (s : string) :
  path.trailingSeparator (String a s) =
    if String.eqb s "" then Ascii.eqb a "/" else path.trailingSeparator s.
Proof.
  unfold path.trailingSeparator, JsString.charIs.
  destruct s as [|b s]; [done|].
  cbn [String.length String.eqb]. rewrite !Nat.sub_succ, !Nat.sub_0_r. done.
Qed.

Lemma trailingSeparator_app (a b : string) :
  b <> "" -> path.trailingSeparator (a +:+ b) = path.trailingSeparator b.
Proof.
  intros Hb. induction a as [|c a IH]; [done|].
  change (String c a +:+ b) with (String c (a +:+ b)).
  rewrite trailingSeparator_cons.
  destruct (String.eqb_spec (a +:+ b) "") as [He|_]; [|done].
  destruct a; [done|discriminate He].
Qed.

Lemma splitSlash_segments (s : string) :
  Forall (fun seg => forall i, JsString.charIs "/" seg i = false)
    (JsString.splitSlash s).
Proof.
  induction s as [|a s IH]; cbn [JsString.splitSlash].
  - constructor; [|constructor]. by intros [|i].
  - destruct (Ascii.eqb a "/") eqn:Ha.
    + constructor; [|done]. by intros [|i].
    + destruct (JsString.splitSlash s) as [|seg rest]; [repeat constructor|].
      * intros [|i]; [exact Ha|done].
      * apply Forall_cons in IH as [Hseg Hrest]. constructor; [|done].
        intros [|i]; [exact Ha|apply Hseg].
Qed.

Lemma normalizeStep_segments (allow : bool) (stack : list string) (seg : string) :
  (forall i, JsString.charIs "/" seg i = false) ->
  Forall (fun g => g <> "" /\ forall i, JsString.charIs "/" g i = false) stack ->
  Forall (fun g => g <> "" /\ forall i, JsString.charIs "/" g i = false)
    (path.normalizeStep allow stack seg).
Proof.
  intros Hseg Hstack. unfold path.normalizeStep.
  destruct (String.eqb_spec seg "") as [->|Hne]; [done|]. cbn [orb].
  destruct (String.eqb seg "."); [done|].
  destruct (String.eqb seg "..").
  - destruct stack as [|top below].
    + destruct allow; [|done]. by constructor.
    + destruct (String.eqb top "..").
      * destruct allow; [|done]. by constructor.
      * by apply Forall_cons in Hstack as [_ ?].
  - by constructor.
Qed.

Lemma normalizeString_segments (allow : bool) (segs stack : list string) :
  Forall (fun seg => forall i, JsString.charIs "/" seg i = false) segs ->
  Forall (fun g => g <> "" /\ forall i, JsString.charIs "/" g i = false) stack ->
  Forall (fun g => g <> "" /\ forall i, JsString.charIs "/" g i = false)
    (fold_left (path.normalizeStep allow) segs stack).
Proof.
  revert stack. induction segs as [|seg segs IH]; intros stack Hsegs Hstack;
    [done|].
  apply Forall_cons in Hsegs as [Hseg Hsegs]. cbn [fold_left].
  apply IH; [done|]. by apply normalizeStep_segments.
Qed.

Lemma joinSlash_no_trailing (segs : list string) :
  segs <> [] ->
  Forall (fun g => g <> "" /\ forall i, JsString.charIs "/" g i = false) segs ->
  JsString.joinSlash segs <> "" /\
  path.trailingSeparator (JsString.joinSlash segs) = false.
Proof.
  induction segs as [|seg rest IH]; [done|]. intros _ Hall.
  apply Forall_cons in Hall as [[Hne Hseg] Hrest].
  destruct rest as [|seg' rest].
  - cbn [JsString.joinSlash]. split; [done|]. apply Hseg.
  - destruct (IH ltac:(done) Hrest) as [Hjoin Htrail].
    change (JsString.joinSlash (seg :: seg' :: rest))
      with (seg +:+ String "/" (JsString.joinSlash (seg' :: rest))).
    split.
    + destruct seg; [done|discriminate].
    + rewrite trailingSeparator_app by discriminate.
      rewrite trailingSeparator_cons.
      by destruct (String.eqb_spec (JsString.joinSlash (seg' :: rest)) "").
Qed.

(** Normalizing a path never gives it a trailing separator it did not
    have, the root apart. *)
Lemma normalize_no_new_separator (p : string) :
  path.trailingSeparator (path.normalize p) = true ->
  path.trailingSeparator p = true \/ path.normalize p = "/".
Proof.
  unfold path.normalize.
  destruct (String.eqb p ""); [done|].
  unfold path.normalizeString.
  set (stack := fold_left _ _ _).
  assert (Forall (fun g => g <> "" /\ forall i, JsString.charIs "/" g i = false)
            (rev stack)) as Hstack.
  { apply Forall_rev, normalizeString_segments; [apply splitSlash_segments|done]. }
  destruct (String.eqb_spec (JsString.joinSlash (rev stack)) "") as [He|Hne].
  - destruct (path.isAbsolute p); [by right|].
    destruct (path.trailingSeparator p); [by left|done].
  - destruct (path.trailingSeparator p); [by left|].
    assert (rev stack <> []) as Hnil by (intros Hnil; by rewrite Hnil in Hne).
    destruct (joinSlash_no_trailing _ Hnil Hstack) as [_ Htrail].
    destruct (path.isAbsolute p).
    + change ("/" +:+ JsString.joinSlash (rev stack))
        with (String "/" (JsString.joinSlash (rev stack))).
      rewrite trailingSeparator_cons.
      destruct (String.eqb_spec (JsString.joinSlash (rev stack)) ""); [done|].
      by rewrite Htrail.
    + by rewrite Htrail.
Qed.

Lemma expandHome_marker (home : string) :
  expandHome home "~" = path.normalize home.
Proof.
  unfold expandHome. cbn [JsString.startsWith String.eqb orb JsString.slice].
  unfold path.join. rewrite !filter_cons, filter_nil.
  rewrite (decide_False (P := "" <> "")) by (intros Hc; by apply Hc).
  destruct (decide (home <> "")) as [Hne|He]; [done|].
  destruct (decide (home = "")) as [->|Hne]; [done|by destruct He].
Qed.

(** C6 (amended).  [expandHome] sends the marker ["~"] to
    [path.join(home, "")], the home directory in normal form.  No separator
    is appended: the result ends in one only when the home directory does,
    or when it is the root; and it is the home directory itself whenever
    that is a path in normal form.  It sends every ["~/" + tail] to
    [path.join(home, tail)]; every other path is returned as it is. *)
Theorem expandHome_cases (home : string) :
  expandHome home "~" = path.join [home; ""] /\
  expandHome home "~" = path.normalize home /\
  (path.trailingSeparator (expandHome home "~") = true ->
   path.trailingSeparator home = true \/ expandHome home "~" = "/") /\
  (path.normalize home = home -> expandHome home "~" = home) /\
  (forall tail, expandHome home ("~/" +:+ tail) = path.join [home; tail]) /\
  (forall p, p <> "~" -> (forall tail, p <> "~/" +:+ tail) ->
             expandHome home p = p).
Proof.
  split; [reflexivity|]. split; [apply expandHome_marker|].
  split; [|split; [|split]].
  - rewrite expandHome_marker. apply normalize_no_new_separator.
  - intros Hn. by rewrite expandHome_marker.
  - intros tail. unfold expandHome.
    rewrite (startsWith_app "~/" tail). simpl. done.
  - intros p Hp Htail. unfold expandHome.
    destruct (JsString.startsWith "~/" p) eqn:Hs.
    + destruct (startsWith_inv _ _ Hs) as [t ->]. by destruct (Htail t).
    + destruct (String.eqb_spec p "~"); [done|]. done.
Qed.

Lemma expandHome_cases_witness :
  expandHome "/home/user" "~" = "/home/user" /\
  path.trailingSeparator (expandHome "/home/user" "~") = false /\
  expandHome "/home/user" "~/.config/mutt" = "/home/user/.config/mutt" /\
  expandHome "/home/user" "~user/notes" = "~user/notes".
Proof.
  destruct (expandHome_cases "/home/user")
    as (_ & _ & Hsep & Hmark & Htail & Hother).
  split; [apply Hmark; reflexivity|]. split; [|split].
  - destruct (path.trailingSeparator (expandHome "/home/user" "~")) eqn:Hts;
      [|reflexivity].
    destruct (Hsep eq_refl) as [Hhome|Hroot]; [discriminate Hhome|].
    rewrite (Hmark eq_refl) in Hroot. discriminate Hroot.
  - apply (Htail ".config/mutt").
  - apply Hother; [discriminate|]. intros tail. discriminate.
Defined.

(** C6, as stated, fails for a home directory written with a trailing
    separator, which the result keeps, and for one written with a doubled
    separator, which the result is not. *)
Lemma expandHome_marker_keeps_separator :
  expandHome "/home/user/" "~" = "/home/user/" /\
  path.trailingSeparator (expandHome "/home/user/" "~") = true /\
  expandHome "/home//user" "~" = "/home/user" /\
  expandHome "/home//user" "~" <> "/home//user".
Proof. repeat split; try reflexivity. discriminate. Qed.

(** ** Expansion is idempotent when the home directory is absolute *)

(** [writeFile] hands an already expanded path to [ensureDirectory] and to
    [backupFile], which expand it again; with an absolute home directory
    the second expansion changes nothing. *)

Lemma expandHome_absolute (home x : string) :
  path.isAbsolute x = true -> expandHome home x = x.
Proof.
  unfold path.isAbsolute, JsString.charIs, expandHome.
  destruct x as [|a x]; simpl; [done|].
  destruct (Ascii.eqb_spec a "/") as [->|]; [|done]. intros _.
  by destruct x.
Qed.

Lemma isAbsolute_app (a b : string) :
  path.isAbsolute a = true -> path.isAbsolute (a +:+ b) = true.
Proof. by destruct a. Qed.

Lemma normalize_absolute (p : string) :
  path.isAbsolute p = true -> path.isAbsolute (path.normalize p) = true.
Proof.
  intros Hp. unfold path.normalize. rewrite Hp.
  destruct (String.eqb p "") eqn:He.
  - apply String.eqb_eq in He. by subst p.
  - cbn [negb].
    destruct (String.eqb (path.normalizeString p false) ""); [done|].
    by destruct (path.trailingSeparator p).
Qed.

Lemma join_absolute (home tail : string) :
  path.isAbsolute home = true -> path.isAbsolute (path.join [home; tail]) = true.
Proof.
  intros Hh. unfold path.join. rewrite !filter_cons, filter_nil.
  rewrite decide_True by (intros ->; done).
  destruct (decide (tail <> "")); cbn [JsString.joinSlash];
    apply normalize_absolute; [by apply isAbsolute_app|done].
Qed.

Lemma dirnameScan_found (p : string) (i : nat) (m : bool) (e : nat) :
  path.dirnameScan p i m = Some e ->
  (1 <= e)%nat /\ JsString.charIs "/" p e = true.
Proof.
  revert m. induction i as [|j IH]; intros m; cbn [path.dirnameScan]; [done|].
  destruct (JsString.charIs "/" p (S j)) eqn:Hc.
  - destruct m; [apply IH|]. intros [= <-]. split; [lia|done].
  - apply IH.
Qed.

(** A path that is not the marker and does not start with the marker and
    a separator is left as it is. *)
Lemma expandHome_fixed (home x : string) :
  JsString.startsWith "~/" x || String.eqb x "~" = false ->
  expandHome home x = x.
Proof. intros Hx. unfold expandHome. by rewrite Hx. Qed.

Lemma dirname_absolute (p : string) :
  path.isAbsolute p = true -> path.isAbsolute (path.dirname p) = true.
Proof.
  intros Hp. unfold path.dirname. rewrite Hp.
  destruct (String.eqb p "") eqn:He.
  { apply String.eqb_eq in He. by subst p. }
  destruct (path.dirnameScan p (String.length p - 1) true) as [e|] eqn:Hs; [|done].
  apply dirnameScan_found in Hs as [He1 _].
  destruct (e =? 1)%nat; [done|]. cbn [andb].
  destruct e as [|e]; [lia|]. by destruct p.
Qed.

Lemma marked_spec (x : string) :
  JsString.startsWith "~/" x || String.eqb x "~" = true <->
  x = "~" \/ exists t, x = "~/" +:+ t.
Proof.
  rewrite orb_true_iff, String.eqb_eq. split.
  - intros [Hs|Hx]; [right; by apply startsWith_inv|by left].
  - intros [Hx|[t ->]]; [by right|left; apply startsWith_app].
Qed.

Lemma take_slice (n : nat) (s : string) :
  JsString.take n s +:+ JsString.slice n s = s.
Proof.
  revert s. induction n as [|n IH]; intros [|a s]; try done.
  exact (f_equal (String a) (IH s)).
Qed.

Lemma take_length (n : nat) (s : string) :
  JsString.charIs "/" s n = true -> String.length (JsString.take n s) = n.
Proof.
  unfold JsString.charIs.
  revert s. induction n as [|n IH]; intros [|a s]; simpl; try done.
  intros Hc. exact (f_equal S (IH s Hc)).
Qed.

Lemma dirname_unmarked (p : string) :
  JsString.startsWith "~/" p || String.eqb p "~" = false ->
  JsString.startsWith "~/" (path.dirname p) || String.eqb (path.dirname p) "~"
    = false.
Proof.
  intros Hp. apply not_true_is_false. intros Hd. apply not_true_iff_false in Hp.
  apply Hp. apply marked_spec. right.
  apply marked_spec in Hd. revert Hd. unfold path.dirname.
  destruct (String.eqb p "") eqn:He; [by intros [?|[? ?]]|].
  destruct (path.dirnameScan p (String.length p - 1) true) as [e|] eqn:Hs.
  2:{ destruct (path.isAbsolute p); by intros [?|[? ?]]. }
  apply dirnameScan_found in Hs as [He1 Hslash].
  destruct (path.isAbsolute p && (e =? 1)%nat); [by intros [?|[? ?]]|].
  pose proof (take_length e p Hslash) as Hlen.
  pose proof (take_slice e p) as Hsplit.
  intros [Ht|[t Ht]]; rewrite Ht in Hsplit, Hlen.
  - (* the directory is the bare marker: the separator follows it *)
    simpl in Hlen. subst e. rewrite <- Hsplit in Hslash.
    destruct (JsString.slice 1 p) as [|c rest] eqn:Hrest.
    { by vm_compute in Hslash. }
    change (Ascii.eqb c "/" = true) in Hslash.
    apply Ascii.eqb_eq in Hslash as ->.
    exists rest. exact (eq_sym Hsplit).
  - exists (t +:+ JsString.slice e p). exact (eq_sym Hsplit).
Qed.

Lemma expandHome_marked_or_fixed (home x : string) :
  path.isAbsolute home = true ->
  path.isAbsolute (expandHome home x) = true \/
  (expandHome home x = x /\
   JsString.startsWith "~/" x || String.eqb x "~" = false).
Proof.
  intros Hh. unfold expandHome.
  destruct (JsString.startsWith "~/" x || String.eqb x "~") eqn:Hx.
  - left. by apply join_absolute.
  - by right.
Qed.

Lemma expandHome_idempotent (home x : string) :
  path.isAbsolute home = true ->
  expandHome home (expandHome home x) = expandHome home x.
Proof.
  intros Hh. destruct (expandHome_marked_or_fixed home x Hh) as [Ha|[-> Hx]].
  - by apply expandHome_absolute.
  - by apply expandHome_fixed.
Qed.

Lemma expandHome_dirname (home x : string) :
  path.isAbsolute home = true ->
  expandHome home (path.dirname (expandHome home x))
    = path.dirname (expandHome home x).
Proof.
  intros Hh. destruct (expandHome_marked_or_fixed home x Hh) as [Ha|[-> Hx]].
  - by apply expandHome_absolute, dirname_absolute.
  - by apply expandHome_fixed, dirname_unmarked.
Qed.

(** ** Running computations *)

Lemma outcome_eta {W A} (o : outcome W A) :
  Outcome (trace o) (value o) (after o) = o.
Proof. by destruct o. Qed.

Section Runs.
Context {W : Type} `{NodeFs W}.
Variable home : string.

Lemma bind_ok {A B} (m : M W A) (k : A -> M W B) w a :
  value (m w) = Ok a ->
  bind m k w =
    Outcome (trace (m w) ++ trace (k a (after (m w))))
      (value (k a (after (m w)))) (after (k a (after (m w)))).
Proof. intros Hm. unfold bind. by rewrite Hm. Qed.

Lemma bind_err {A B} (m : M W A) (k : A -> M W B) w e :
  value (m w) = Err e ->
  bind m k w = Outcome (trace (m w)) (Err e) (after (m w)).
Proof. intros Hm. unfold bind. by rewrite Hm. Qed.

(** A loop over [xs ++ ys] is the loop over [xs] followed, when that one
    did not throw, by the loop over [ys] from the world and the results
    array it left. *)
Lemma for_push_app {X R} (body : X -> M W R) (xs ys : list X) acc w :
  for_push body (xs ++ ys) acc w =
    let o1 := for_push body xs acc w in
    match value o1 with
    | Ok rs =>
        let o2 := for_push body ys rs (after o1) in
        Outcome (trace o1 ++ trace o2) (value o2) (after o2)
    | Err e => Outcome (trace o1) (Err e) (after o1)
    end.
Proof.
  revert acc w. induction xs as [|x xs IH]; intros acc w; simpl.
  - by rewrite outcome_eta.
  - destruct (value (body x w)) as [r|e] eqn:Hx.
    + rewrite !(bind_ok _ _ _ r Hx). simpl. rewrite IH. simpl.
      destruct (value (for_push body xs (acc ++ [r]) (after (body x w))));
        simpl; by rewrite ?app_assoc.
    + by rewrite !(bind_err _ _ _ e Hx).
Qed.

(** If the items before [x] all succeed and [x] fails, the loop throws
    the error of [x]; the calls made are those of the items before [x]
    followed by those of [x], and the world is the one the failed attempt
    on [x] left. *)
Lemma for_push_abort {X R} (body : X -> M W R) (before rest : list X) x w rs e :
  value (for_push body before [] w) = Ok rs ->
  value (body x (after (for_push body before [] w))) = Err e ->
  for_push body (before ++ x :: rest) [] w =
    Outcome
      (trace (for_push body before [] w) ++
       trace (body x (after (for_push body before [] w))))
      (Err e)
      (after (body x (after (for_push body before [] w)))).
Proof.
  intros Hbefore Hx. rewrite for_push_app. simpl. rewrite Hbefore.
  by rewrite (bind_err _ _ _ e Hx).
Qed.

(** When nothing throws, one result per item is pushed, in order. *)
Lemma for_push_length {X R} (body : X -> M W R) (xs : list X) acc w rs :
  value (for_push body xs acc w) = Ok rs ->
  length rs = (length acc + length xs)%nat.
Proof.
  revert acc w. induction xs as [|x xs IH]; intros acc w; simpl.
  - intros [= <-]. lia.
  - unfold bind. destruct (value (body x w)) as [r|e]; simpl; [|done].
    intros Hrs. apply IH in Hrs. rewrite length_app in Hrs. simpl in Hrs. lia.
Qed.

(** A failed existence check ends [backupFile] with [null]; it is the only
    call made. *)
Lemma backupFile_access_rejected (filepath : string) w e w' :
  fs_access (expandHome home filepath) w = (Err e, w') ->
  backupFile home filepath w =
    Outcome [Access (expandHome home filepath)] (Ok None) w'.
Proof.
  intros Hacc. unfold backupFile, try_catch, bind, fs.access, perform.
  by rewrite Hacc.
Qed.

(** C10.  [exists] and [getStats] never throw: whatever error the
    underlying call fails with, the result is [false], respectively
    [null]; the error itself plays no part in the result. *)
Theorem exists_getStats_total (filepath : string) w :
  value (exists_ home filepath w) =
    Ok (match fst (fs_access (expandHome home filepath) w) with
        | Ok _ => true
        | Err _ => false
        end) /\
  value (getStats home filepath w) =
    Ok (match fst (fs_stat (expandHome home filepath) w) with
        | Ok stats => Some stats
        | Err _ => None
        end).
Proof.
  split.
  - unfold exists_, try_catch, bind, fs.access, perform.
    by destruct (fs_access _ w) as [[?|?] ?].
  - unfold getStats, try_catch, bind, fs.stat, perform.
    by destruct (fs_stat _ w) as [[?|?] ?].
Qed.

End Runs.

(** ** Option merging *)

Lemma spread_shallowMerge (defaults over : object) :
  shallowMerge defaults over (spread defaults over).
Proof.
  intros name. unfold spread. rewrite lookup_union.
  destruct (over !! name), (defaults !! name); done.
Qed.

Lemma shallowMerge_unique (defaults over m1 m2 : object) :
  shallowMerge defaults over m1 -> shallowMerge defaults over m2 -> m1 = m2.
Proof. intros H1 H2. apply map_eq. intros name. by rewrite H1, H2. Qed.

(** C5.  [writeConfigFiles] is [writeFiles] run with the shallow merge of
    the caller's options over the defaults [backup = true] and
    [permissions = 0o600]: each field the caller supplies is the one in
    force, and a default is in force only for a field the caller left out. *)
Theorem writeConfigFiles_defaults {W : Type} `{NodeFs W} (home : string)
    (files : list (string * string)) (options : object) :
  exists effective : object,
    shallowMerge configDefaults options effective /\
    writeConfigFiles home files options = writeFiles home files effective /\
    prop effective "backup" =
      match options !! "backup" with Some v => v | None => JBool true end /\
    prop effective "permissions" =
      match options !! "permissions" with
      | Some v => v
      | None => JNum mode_600
      end.
Proof.
  exists (spread configDefaults options).
  pose proof (spread_shallowMerge configDefaults options) as Hm.
  split; [done|]. split; [done|].
  unfold prop. rewrite !Hm.
  split; [by destruct (options !! "backup")|by destruct (options !! "permissions")].
Qed.

(** ** The paths-object adapter *)

Lemma includes_fileKeys (key : string) :
  includes fileKeys (JsString.toLowerCase key) = true <-> namesFile key.
Proof.
  unfold includes, fileKeys, namesFile, sameIgnoringCase. simpl.
  rewrite !orb_true_iff, !String.eqb_eq. split.
  - intros [Hk|[Hk|Hf]]; [| |done].
    + exists "accountmuttrc". split; [set_solver|done].
    + exists "mainmuttrc". split; [set_solver|done].
  - intros (marker & Hin & Hk).
    apply elem_of_cons in Hin as [->|Hin]; [by left|].
    apply elem_of_cons in Hin as [->|Hin]; [by right; left|].
    by apply elem_of_nil in Hin.
Qed.

Lemma elem_of_Set_add (d x : string) (dirs : list string) :
  d ∈ Set_add x dirs <-> d ∈ dirs \/ d = x.
Proof.
  unfold Set_add. case_bool_decide as Hx.
  - split; [by left|]. intros [?| ->]; done.
  - rewrite elem_of_app, list_elem_of_singleton. done.
Qed.

Lemma NoDup_Set_add (x : string) (dirs : list string) :
  NoDup dirs -> NoDup (Set_add x dirs).
Proof.
  intros Hnd. unfold Set_add. case_bool_decide as Hx; [done|].
  apply NoDup_app. split; [done|]. split; [|apply NoDup_singleton].
  intros y Hy Hyx. apply list_elem_of_singleton in Hyx as ->. done.
Qed.

Lemma collectDirs_NoDup (home : string) (entries : list (string * string))
    (dirs : list string) :
  NoDup dirs -> NoDup (collectDirs home entries dirs).
Proof.
  revert dirs. induction entries as [|[key filepath] rest IH]; intros dirs Hnd;
    cbn [collectDirs]; [done|].
  destruct (includes fileKeys (JsString.toLowerCase key));
    apply IH; by apply NoDup_Set_add.
Qed.

Lemma collectDirs_elem (home : string) (entries : list (string * string))
    (dirs : list string) (d : string) :
  d ∈ collectDirs home entries dirs <->
  d ∈ dirs \/
  exists key filepath,
    (key, filepath) ∈ entries /\
    ((namesFile key /\ d = path.dirname (expandHome home filepath)) \/
     (~ namesFile key /\ d = expandHome home filepath)).
Proof.
  revert dirs. induction entries as [|[key filepath] rest IH]; intros dirs;
    cbn [collectDirs].
  - split; [by left|]. intros [?|(k & p & Hin & _)]; [done|].
    by apply elem_of_nil in Hin.
  - destruct (includes fileKeys (JsString.toLowerCase key)) eqn:Hk;
      rewrite IH, elem_of_Set_add.
    + apply includes_fileKeys in Hk. split.
      * intros [[?| ->]|(k & p & Hin & Hd)]; [by left| |].
        -- right. exists key, filepath. split; [by left|]. by left.
        -- right. exists k, p. split; [by right|done].
      * intros [?|(k & p & Hin & Hd)]; [by left; left|].
        apply elem_of_cons in Hin as [[= -> ->]|Hin].
        -- destruct Hd as [[_ ->]|[Hn _]]; [by left; right|done].
        -- right. by exists k, p.
    + assert (~ namesFile key) as Hn.
      { intros Hc. apply includes_fileKeys in Hc. congruence. }
      split.
      * intros [[?| ->]|(k & p & Hin & Hd)]; [by left| |].
        -- right. exists key, filepath. split; [by left|]. by right.
        -- right. exists k, p. split; [by right|done].
      * intros [?|(k & p & Hin & Hd)]; [by left; left|].
        apply elem_of_cons in Hin as [[= -> ->]|Hin].
        -- destruct Hd as [[Hy _]|[_ ->]]; [done|by left; right].
        -- right. by exists k, p.
Qed.

(** C9.  [ensureDirectoriesFromPaths] hands to [ensureDirectories] a list
    of directories without repetition that holds, for every entry whose key
    matches a file-marker name whatever the case of its letters, the parent
    directory of the entry's expanded path, for every other entry the
    expanded path itself, and nothing else. *)
Theorem ensureDirectoriesFromPaths_spec {W : Type} `{NodeFs W} (home : string)
    (paths : list (string * string)) :
  exists dirs : list string,
    ensureDirectoriesFromPaths home paths = ensureDirectories home dirs /\
    NoDup dirs /\
    forall d,
      d ∈ dirs <->
      exists key filepath,
        (key, filepath) ∈ paths /\
        ((namesFile key /\ d = path.dirname (expandHome home filepath)) \/
         (~ namesFile key /\ d = expandHome home filepath)).
Proof.
  exists (collectDirs home paths []). split; [done|]. split.
  - apply collectDirs_NoDup, NoDup_nil_2.
  - intros d. rewrite collectDirs_elem. split; [|by right].
    intros [Hin|?]; [|done]. by apply elem_of_nil in Hin.
Qed.

(** ** The backup step and the write protocol, for any file system *)

Ltac step_bind Hr x Hx :=
  match type of Hr with
  | value (bind ?m ?k ?w) = _ =>
      destruct (value (m w)) as [x|?] eqn:Hx;
      [rewrite (bind_ok m k w x Hx) in Hr; simpl in Hr
      |by rewrite (bind_err m k w _ Hx) in Hr]
  end.

Ltac run_bind x Hx :=
  match goal with
  | |- context [bind ?m ?k ?w] =>
      destruct (value (m w)) as [x|?] eqn:Hx;
      [rewrite (bind_ok m k w x Hx)|rewrite (bind_err m k w _ Hx)]
  end.

Section Protocol.
Context {W : Type} `{NodeFs W}.
Variable home : string.

Lemma perform_trace {A} (c : call) (op : W -> result A * W) w :
  trace (perform c op w) = [c].
Proof. unfold perform. by destruct (op w). Qed.

Lemma ensureDirectory_trace (dir : string) w :
  trace (ensureDirectory home dir w) = [Mkdir (expandHome home dir)].
Proof.
  unfold ensureDirectory, bind, fs.mkdir, perform, ret.
  by destruct (fs_mkdir _ w) as [[[]|e] w1].
Qed.

(** Every run of [backupFile]: a failed existence check ends it with
    [null]; otherwise the clock is read and the copy attempted, and the
    result is the backup path when the copy succeeds and [null] when the
    copy fails, whatever the error. *)
Lemma backupFile_run (filepath : string) w :
  let p := expandHome home filepath in
  let r1 := fs_access p w in
  let t := date_toISOString (snd r1) in
  let b := p +:+ ".backup-" +:+ JsString.replaceColonDot (fst t) in
  let r2 := fs_copyFile p b (snd t) in
  backupFile home filepath w =
    match fst r1 with
    | Err _ => Outcome [Access p] (Ok None) (snd r1)
    | Ok _ =>
        Outcome [Access p; Now; CopyFile p b]
          (match fst r2 with Ok _ => Ok (Some b) | Err _ => Ok None end)
          (snd r2)
    end.
Proof.
  unfold backupFile, try_catch, bind, fs.access, fs.toISOString,
    fs.copyFile, perform, ret.
  destruct (fs_access _ w) as [[[]|e] w1]; simpl; [|done].
  destruct (date_toISOString w1) as [iso w2]; simpl.
  by destruct (fs_copyFile _ _ w2) as [[[]|e] w3].
Qed.

Lemma backupFile_never_throws (filepath : string) w :
  exists b, value (backupFile home filepath w) = Ok b.
Proof.
  rewrite backupFile_run. simpl.
  destruct (fst (fs_access _ w)); simpl; [|by eexists].
  destruct (fst (fs_copyFile _ _ _)); by eexists.
Qed.

(** X6.  The result object of a [writeFile] that resolves: [path] is the
    expanded path, [created] is true exactly when [backup] is [null], and
    [backup] is what the backup step resolved to when [backup] was asked
    for, [null] otherwise. *)
Lemma writeFile_result (filepath content : string) (options : object) w r :
  value (writeFile home filepath content options w) = Ok r ->
  r_path r = expandHome home filepath /\
  r_created r = bool_decide (r_backup r = None) /\
  Ok (r_backup r) =
    (if truthy (prop options "backup")
     then value (backupFile home (expandHome home filepath)
                   (after (ensureDirectory home
                             (path.dirname (expandHome home filepath)) w)))
     else Ok None).
Proof.
  unfold writeFile. set (p := expandHome home filepath). intros Hr.
  step_bind Hr d Hd. step_bind Hr b Hb. step_bind Hr u Hu. step_bind Hr c Hc.
  injection Hr as <-. simpl. split; [done|]. split; [done|].
  destruct (truthy (prop options "backup")); [done|].
  by injection Hb as <-.
Qed.

Lemma ensureDirectory_run (dir : string) w :
  ensureDirectory home dir w =
    Outcome [Mkdir (expandHome home dir)]
      (match fst (fs_mkdir (expandHome home dir) w) with
       | Ok _ => Ok (expandHome home dir)
       | Err e => Err e
       end)
      (snd (fs_mkdir (expandHome home dir) w)).
Proof.
  unfold ensureDirectory, bind, fs.mkdir, perform, ret.
  by destruct (fs_mkdir _ w) as [[[]|e] w1].
Qed.

(** X3.  [ensureDirectories] creates the directories in the order of the array:
    its calls are an initial part of the list of [mkdir] calls for the
    expanded entries, the whole list when nothing fails, and the array it
    resolves to holds the expanded entries in the same order. *)
Lemma ensureDirectories_calls (dirs : list string) w :
  let o := ensureDirectories home dirs w in
  trace o `prefix_of` map (fun d => Mkdir (expandHome home d)) dirs /\
  (forall created, value o = Ok created ->
     trace o = map (fun d => Mkdir (expandHome home d)) dirs /\
     created = map (expandHome home) dirs).
Proof.
  unfold ensureDirectories.
  assert (forall acc w,
    trace (for_push (ensureDirectory home) dirs acc w)
      `prefix_of` map (fun d => Mkdir (expandHome home d)) dirs /\
    (forall created,
       value (for_push (ensureDirectory home) dirs acc w) = Ok created ->
       trace (for_push (ensureDirectory home) dirs acc w)
         = map (fun d => Mkdir (expandHome home d)) dirs /\
       created = acc ++ map (expandHome home) dirs)) as Hloop.
  { clear w. induction dirs as [|d rest IH]; intros acc w.
    - cbn. split; [done|]. intros created [= <-]. by rewrite app_nil_r.
    - cbn [for_push map]. unfold bind. rewrite ensureDirectory_run.
      cbn [trace value after].
      destruct (fst (fs_mkdir (expandHome home d) w)).
      + destruct (IH (acc ++ [expandHome home d])
                    (snd (fs_mkdir (expandHome home d) w))) as [Hpre Hfull].
        cbn [trace value after app]. split; [by apply prefix_cons|].
        intros created Hc. destruct (Hfull created Hc) as [-> ->].
        by rewrite <- app_assoc.
      + cbn [trace value]. split; [|done]. apply prefix_cons, prefix_nil. }
  cbv zeta. destruct (Hloop [] w) as [Hpre Hfull]. split; [done|].
  intros created Hc. by destruct (Hfull created Hc).
Qed.

(** A failed directory creation ends [writeFile] at once. *)
Lemma writeFile_mkdir_failure (filepath content : string) (options : object)
    w e w' :
  fs_mkdir (expandHome home (path.dirname (expandHome home filepath))) w
    = (Err e, w') ->
  writeFile home filepath content options w =
    Outcome [Mkdir (expandHome home (path.dirname (expandHome home filepath)))]
      (Err e) w'.
Proof.
  intros Hm. unfold writeFile, ensureDirectory, fs.mkdir, perform, bind.
  by rewrite Hm.
Qed.

(** The calls of [writeFile] always follow [writePlan]: they are a prefix
    of it, and the whole of it when [writeFile] does not throw. *)
Lemma writeFile_order (filepath content : string) (options : object) w :
  let p := expandHome home filepath in
  let dir := expandHome home (path.dirname p) in
  let w1 := after (ensureDirectory home (path.dirname p) w) in
  let backupCalls :=
    if truthy (prop options "backup") then trace (backupFile home p w1)
    else [] in
  let o := writeFile home filepath content options w in
  trace o `prefix_of` writePlan dir p content options backupCalls /\
  (forall r, value o = Ok r ->
             trace o = writePlan dir p content options backupCalls).
Proof.
  intros p dir w1 backupCalls o. subst o.
  unfold writeFile, writePlan. fold p.
  set (stepB := if truthy (prop options "backup") then backupFile home p
                else ret None).
  set (stepC := if isDefined (prop options "permissions")
                then fs.chmod p (prop options "permissions") else ret tt).
  assert (trace (stepB w1) = backupCalls) as HtB.
  { subst stepB backupCalls. by destruct (truthy _). }
  assert (forall w', trace (stepC w') =
            if isDefined (prop options "permissions")
            then [Chmod p (prop options "permissions")] else []) as HtC.
  { intros w'. subst stepC. destruct (isDefined _); [apply perform_trace|done]. }
  run_bind d Hd; simpl; rewrite ensureDirectory_trace; fold dir w1.
  2:{ split; [|done]. by eexists. }
  run_bind b Hb; simpl; rewrite HtB.
  2:{ split; [|done]. by eexists. }
  run_bind u Hu; simpl; unfold fs.writeFile; rewrite !perform_trace.
  2:{ split; [|done]. apply prefix_cons, prefix_app, prefix_cons, prefix_nil. }
  run_bind c Hc; simpl; rewrite HtC, ?app_nil_r.
  all: rewrite <- ?app_assoc; simpl.
  all: split; [done|]; done.
Qed.

(** X7.  With an absolute home directory the calls of [writeFile] are an
    initial part of: creation of the parent directory of the expanded path,
    the calls of the backup step on the expanded path itself (existence
    check, clock, copy), the content write, the permission set; and they
    are the whole of it when [writeFile] resolves. *)
Lemma writeFile_order_absolute (filepath content : string) (options : object) w :
  path.isAbsolute home = true ->
  let p := expandHome home filepath in
  let w1 := after (ensureDirectory home (path.dirname p) w) in
  let backupCalls :=
    if truthy (prop options "backup") then trace (backupFile home p w1)
    else [] in
  let o := writeFile home filepath content options w in
  trace o `prefix_of`
    writePlan (path.dirname p) p content options backupCalls /\
  (forall r, value o = Ok r ->
             trace o = writePlan (path.dirname p) p content options backupCalls) /\
  backupCalls `prefix_of`
    [Access p; Now;
     CopyFile p (p +:+ ".backup-" +:+
                 JsString.replaceColonDot (fst (date_toISOString
                                                  (snd (fs_access p w1)))))].
Proof.
  intros Hh p w1 backupCalls o.
  pose proof (writeFile_order filepath content options w) as Horder.
  cbv zeta in Horder. fold p w1 backupCalls o in Horder.
  unfold p in Horder at 1 3. rewrite (expandHome_dirname home filepath Hh) in Horder.
  fold p in Horder. destruct Horder as [Hpre Hfull].
  split; [done|]. split; [done|].
  subst backupCalls. destruct (truthy (prop options "backup")); [|apply prefix_nil].
  rewrite backupFile_run. cbv zeta.
  replace (expandHome home p) with p
    by (symmetry; apply (expandHome_idempotent home filepath Hh)).
  destruct (fst (fs_access p w1)); [done|].
  apply prefix_cons, prefix_nil.
Qed.

End Protocol.

(** ** Runs in the in-memory file system *)

Lemma append_ne (p s : string) : s <> "" -> p +:+ s <> p.
Proof.
  intros Hs. induction p as [|a p IH]; simpl; [done|].
  intros Heq. injection Heq as Hp. by apply IH.
Qed.

(** C8.  When the expanded path does not exist, [backupFile] resolves to
    [null] and throws nothing; the existence check is the only call it
    makes, so no file is created.  This holds over any file system, where a
    path that does not exist is one whose existence check is rejected, and
    in the in-memory one, where the path is neither a file nor a directory
    and the world is left exactly as it was. *)
Theorem backupFile_absent (home filepath : string) :
  (forall (W : Type) (N : NodeFs W) (w w' : W) (e : errno),
     fs_access (expandHome home filepath) w = (Err e, w') ->
     backupFile home filepath w =
       Outcome [Access (expandHome home filepath)] (Ok None) w') /\
  (forall w : MemFs.world,
     MemFs.present w (expandHome home filepath) = false ->
     backupFile home filepath w =
       Outcome [Access (expandHome home filepath)] (Ok None) w).
Proof.
  split.
  - intros W N w w' e Hacc. by apply (backupFile_access_rejected home _ w e w').
  - intros w Habsent.
    destruct (MemFs.fault w (Access (expandHome home filepath))) as [e|] eqn:Hf.
    + apply (backupFile_access_rejected home _ w e w).
      cbn [fs_access MemFs.node]. unfold MemFs.access, MemFs.guarded.
      by rewrite Hf.
    + apply (backupFile_access_rejected home _ w ENOENT w).
      cbn [fs_access MemFs.node]. unfold MemFs.access, MemFs.guarded.
      by rewrite Hf, Habsent.
Qed.

Lemma backupFile_absent_witness :
  MemFs.present Samples.installed "/etc/app/other.conf" = false /\
  backupFile Samples.home "/etc/app/other.conf" Samples.installed =
    Outcome [Access "/etc/app/other.conf"] (Ok None) Samples.installed /\
  backupFile Samples.home Samples.conf Samples.locked =
    Outcome [Access Samples.conf] (Ok None) Samples.locked.
Proof.
  destruct (backupFile_absent Samples.home "/etc/app/other.conf")
    as [_ Hmissing].
  destruct (backupFile_absent Samples.home Samples.conf) as [Hrejected _].
  split; [reflexivity|]. split.
  - apply Hmissing. reflexivity.
  - apply (Hrejected MemFs.world MemFs.node Samples.locked Samples.locked EACCES).
    reflexivity.
Defined.

(** C4 (amended).  On a file that exists, when the existence check and the
    copy go through, [backupFile] resolves to the expanded path followed by
    [".backup-"] and the ISO timestamp of the clock with each colon and
    period turned into a hyphen; afterwards that path holds the content and
    mode of the original, every other file, the original among them, is as
    it was, and no directory changed.  The backup is one more file when
    nothing was at that path before; when a file was there already it is
    overwritten and the set of files stays the same. *)
Theorem backupFile_copies_file (home filepath : string) (w : MemFs.world)
    (f : MemFs.file) :
  let p := expandHome home filepath in
  let b := p +:+ ".backup-" +:+ JsString.replaceColonDot (MemFs.clock w) in
  let o := backupFile home filepath w in
  MemFs.files w !! p = Some f ->
  MemFs.fault w (Access p) = None ->
  MemFs.fault w (CopyFile p b) = None ->
  b ∉ MemFs.dirs w ->
  path.dirname b ∈ MemFs.dirs w ->
  value o = Ok (Some b) /\
  trace o = [Access p; Now; CopyFile p b] /\
  MemFs.files (after o) = <[b := f]> (MemFs.files w) /\
  MemFs.dirs (after o) = MemFs.dirs w /\
  MemFs.files (after o) !! p = Some f /\
  (MemFs.files w !! b = None ->
   size (MemFs.files (after o)) = S (size (MemFs.files w))) /\
  (is_Some (MemFs.files w !! b) ->
   dom (MemFs.files (after o)) = dom (MemFs.files w)).
Proof.
  intros p b o Hf Hacc Hcopy Hnodir Hparent. subst o.
  rewrite backupFile_run. fold p. cbn [fs_access fs_copyFile date_toISOString MemFs.node].
  unfold MemFs.access, MemFs.guarded. rewrite Hacc.
  unfold MemFs.present. rewrite Hf. rewrite bool_decide_eq_true_2 by eauto.
  cbn [orb fst snd MemFs.clock]. fold b.
  unfold MemFs.copyFile, MemFs.guarded. rewrite Hcopy, Hf.
  rewrite bool_decide_eq_false_2 by done.
  rewrite bool_decide_eq_true_2 by done.
  cbn [fst snd trace value after MemFs.put MemFs.files MemFs.dirs].
  assert (b <> p) as Hne by (by apply append_ne).
  split; [done|]. split; [done|]. split; [done|]. split; [done|].
  split; [|split].
  - by rewrite lookup_insert_ne.
  - intros Hnew. by apply map_size_insert_None.
  - intros Hold. rewrite dom_insert_L.
    apply elem_of_dom in Hold.
    by apply subseteq_union_1_L, singleton_subseteq_l.
Qed.

Lemma backupFile_copies_file_witness :
  let o := backupFile Samples.home Samples.conf Samples.installed in
  value o = Ok (Some Samples.conf_backup) /\
  MemFs.files (after o) !! Samples.conf_backup
    = Some (MemFs.File "x=1" Samples.mode_644) /\
  MemFs.files (after o) !! Samples.conf
    = Some (MemFs.File "x=1" Samples.mode_644) /\
  size (MemFs.files (after o)) = 2%nat.
Proof.
  destruct (backupFile_copies_file Samples.home Samples.conf Samples.installed
              (MemFs.File "x=1" Samples.mode_644))
    as (Hv & _ & Hfiles & _ & Horig & Hnew & _).
  - reflexivity.
  - reflexivity.
  - reflexivity.
  - apply (bool_decide_unpack _). vm_compute. exact I.
  - apply (bool_decide_unpack _). vm_compute. exact I.
  - split; [exact Hv|]. split; [|split].
    + rewrite Hfiles. apply lookup_insert_eq.
    + exact Horig.
    + rewrite Hnew; reflexivity.
Defined.

(** C4, as stated, fails when a backup taken at the same instant is already
    there: the call succeeds and no path that was free holds a file
    afterwards. *)
Lemma backupFile_collision_creates_nothing :
  let o := backupFile Samples.home Samples.conf Samples.collided in
  MemFs.files Samples.collided !! Samples.conf
    = Some (MemFs.File "x=1" Samples.mode_644) /\
  value o = Ok (Some Samples.conf_backup) /\
  ~ (exists q, MemFs.files Samples.collided !! q = None /\
               is_Some (MemFs.files (after o) !! q)).
Proof.
  split; [vm_compute; reflexivity|]. split; [vm_compute; reflexivity|].
  intros (q & Hfree & Hthere).
  replace (MemFs.files
             (after (backupFile Samples.home Samples.conf Samples.collided)))
    with (<[Samples.conf_backup := MemFs.File "x=1" Samples.mode_644]>
            (MemFs.files Samples.collided)) in Hthere
    by (vm_compute; reflexivity).
  destruct (decide (q = Samples.conf_backup)) as [->|Hq].
  - clear Hthere. revert Hfree. vm_compute. intros Hfree. inversion Hfree.
  - rewrite lookup_insert_ne in Hthere by (intros Heq; apply Hq; symmetry; exact Heq).
    rewrite Hfree in Hthere. destruct Hthere as [f Hf]. inversion Hf.
Qed.

(** C1.  The file exists and cannot be read, so the copy is refused with
    [EACCES]: [backupFile] resolves to [null] instead of throwing, and
    [writeFile] with [backup: true] goes on to replace the content; the old
    content is gone and no backup holds it. *)
Theorem backupFile_hides_copy_failure :
  MemFs.present Samples.unreadable Samples.conf = true /\
  fst (MemFs.copyFile Samples.conf Samples.conf_backup Samples.unreadable)
    = Err EACCES /\
  backupFile Samples.home Samples.conf Samples.unreadable =
    Outcome
      [Access Samples.conf; Now; CopyFile Samples.conf Samples.conf_backup]
      (Ok None) Samples.unreadable /\
  let o := writeFile Samples.home Samples.conf "x=2"
             {[ "backup" := JBool true ]} Samples.unreadable in
  value o
    = Ok {| r_path := Samples.conf; r_backup := None; r_created := true |} /\
  In (WriteFile Samples.conf "x=2") (trace o) /\
  MemFs.files (after o) !! Samples.conf
    = Some (MemFs.File "x=2" Samples.mode_200) /\
  MemFs.files (after o) !! Samples.conf_backup = None.
Proof.
  repeat split; try (vm_compute; reflexivity).
  vm_compute. tauto.
Qed.

(** C2.  A [writeFile] with [backup: true] on a file that is already there
    succeeds with [created] true and no backup when the copy of the old
    content fails, here for lack of space. *)
Theorem writeFile_created_despite_existing_file :
  MemFs.files Samples.no_space !! Samples.conf
    = Some (MemFs.File "x=1" Samples.mode_644) /\
  let o := writeFile Samples.home Samples.conf ""
             {[ "backup" := JBool true ]} Samples.no_space in
  value o
    = Ok {| r_path := Samples.conf; r_backup := None; r_created := true |} /\
  MemFs.files (after o) !! Samples.conf
    = Some (MemFs.File "" Samples.mode_644).
Proof. repeat split; vm_compute; reflexivity. Qed.

(** C3.  The calls of a [writeFile] whose backup copy is refused: the
    failed copy is followed by the content write and the permission set,
    and the call resolves normally.  A refused directory creation, by
    contrast, ends the call at once with the error. *)
Theorem writeFile_continues_after_failed_backup :
  let o := writeFile Samples.home Samples.conf "x=2"
             {[ "backup" := JBool true; "permissions" := JNum mode_600 ]}
             Samples.unreadable in
  fst (MemFs.copyFile Samples.conf Samples.conf_backup Samples.unreadable)
    = Err EACCES /\
  trace o =
    [Mkdir "/etc/app"; Access Samples.conf; Now;
     CopyFile Samples.conf Samples.conf_backup;
     WriteFile Samples.conf "x=2"; Chmod Samples.conf (JNum mode_600)] /\
  value o
    = Ok {| r_path := Samples.conf; r_backup := None; r_created := true |} /\
  writeFile Samples.home "/srv/etc/app.conf" "x=2"
    {[ "backup" := JBool true; "permissions" := JNum mode_600 ]}
    Samples.blocked
    = Outcome [Mkdir "/srv/etc"] (Err EEXIST) Samples.blocked.
Proof. repeat split; vm_compute; reflexivity. Qed.

(** ** Batches *)

Lemma insertByIndex_perm (e : N * (string * string)) l :
  Permutation (insertByIndex e l) (e :: l).
Proof.
  induction l as [|e' l IH]; cbn; [done|].
  destruct (fst e <? fst e')%N; [done|].
  rewrite IH. apply perm_swap.
Qed.

Lemma sortByIndex_perm l : Permutation (sortByIndex l) l.
Proof.
  induction l as [|e l IH]; cbn; [done|].
  fold (sortByIndex l). rewrite insertByIndex_perm. by constructor.
Qed.

Lemma insertByIndex_sorted (e : N * (string * string)) l :
  StronglySorted N.le (map fst l) ->
  StronglySorted N.le (map fst (insertByIndex e l)).
Proof.
  induction l as [|e' l IH]; cbn; intros Hs; [repeat constructor|].
  apply StronglySorted_inv in Hs as [Hs Hall].
  destruct (N.ltb_spec (fst e) (fst e')) as [Hlt|Hge]; cbn.
  - constructor; [by constructor|]. constructor; [lia|].
    eapply Forall_impl; [exact Hall|]. cbn. intros; lia.
  - constructor; [by apply IH|].
    rewrite (insertByIndex_perm e l). cbn. by constructor.
Qed.

Lemma sortByIndex_sorted l : StronglySorted N.le (map fst (sortByIndex l)).
Proof.
  induction l as [|e l IH]; cbn; [constructor|].
  fold (sortByIndex l). by apply insertByIndex_sorted.
Qed.

Lemma entries_indexed (o : jsobject) :
  Forall (fun ne : N * (string * string) => arrayIndex (fst (snd ne)) = Some (fst ne))
    (omap (fun e => (fun n => (n, e)) <$> arrayIndex (fst e)) o) /\
  map snd (omap (fun e => (fun n => (n, e)) <$> arrayIndex (fst e)) o)
    = filter (fun e => arrayIndex (fst e) <> None) o.
Proof.
  induction o as [|e o [IHall IHmap]]; [done|].
  rewrite filter_cons. cbn.
  destruct (arrayIndex (fst e)) as [n|] eqn:Hn; cbn.
  - rewrite decide_True by done. split; [by constructor|].
    by rewrite IHmap.
  - rewrite decide_False by (intros Hc; by apply Hc). done.
Qed.

(** Without array-index keys, [Object.entries] is the insertion order. *)
Lemma Object_entries_plain (o : jsobject) :
  Forall (fun e => arrayIndex (fst e) = None) o -> Object_entries o = o.
Proof.
  intros Hall. unfold Object_entries.
  assert (omap (fun e => (fun n => (n, e)) <$> arrayIndex (fst e)) o = [])
    as ->.
  { induction Hall as [|e o He Hall IH]; [done|]. cbn. rewrite He. cbn.
    exact IH. }
  cbn. induction Hall as [|e o He Hall IH]; [done|].
  rewrite filter_cons, decide_True by done. exact (f_equal (cons e) IH).
Qed.

Section BatchRuns.
Context {W : Type} `{NodeFs W}.
Variable home : string.

(** The loop makes the calls of the items one after the other, and leaves
    the world the last of them left. *)
Lemma for_push_oneAfterTheOther {X R} (body : X -> M W R) (xs : list X)
    acc w calls w1 :
  oneAfterTheOther body xs w = Some (calls, w1) ->
  exists rs, for_push body xs acc w = Outcome calls (Ok rs) w1.
Proof.
  revert acc w calls. induction xs as [|x xs IH]; intros acc w calls; cbn.
  - intros [= <- <-]. by exists acc.
  - destruct (value (body x w)) as [r|e] eqn:Hx; [|done].
    destruct (oneAfterTheOther body xs (after (body x w))) as [[calls' w']|] eqn:Hxs;
      [|done].
    intros [= <- <-]. rewrite (bind_ok _ _ _ r Hx).
    destruct (IH (acc ++ [r]) _ _ Hxs) as [rs ->]. by exists rs.
Qed.

Lemma for_push_stops {X R} (body : X -> M W R) (before rest : list X) x
    w calls w1 e :
  oneAfterTheOther body before w = Some (calls, w1) ->
  value (body x w1) = Err e ->
  for_push body (before ++ x :: rest) [] w =
    Outcome (calls ++ trace (body x w1)) (Err e) (after (body x w1)).
Proof.
  intros Hbefore Hx. rewrite for_push_app.
  destruct (for_push_oneAfterTheOther body before [] w calls w1 Hbefore)
    as [rs ->].
  cbn [value trace after for_push]. by rewrite (bind_err _ _ _ e Hx).
Qed.

Lemma oneAfterTheOther_mkdirs (dirs : list string) w calls w1 :
  oneAfterTheOther (ensureDirectory home) dirs w = Some (calls, w1) ->
  calls = map (fun d => Mkdir (expandHome home d)) dirs.
Proof.
  revert w calls. induction dirs as [|d dirs IH]; intros w calls; cbn.
  - by intros [= <- _].
  - destruct (value (ensureDirectory home d w)); [|done].
    destruct (oneAfterTheOther _ dirs _) as [[calls' w']|] eqn:Hrest; [|done].
    intros [= <- <-]. rewrite (IH _ _ Hrest).
    by rewrite ensureDirectory_run.
Qed.

(** C7 (amended).  [ensureDirectories] takes the directories in the order
    of the array; [writeFiles] takes the entries of the files object in the
    order of [Object.entries]: the keys that are array indices first, by
    ascending index, then the other keys in insertion order, which is the
    insertion order of the object when no key is an array index.  When the
    items before item k succeed one after the other and item k fails, the
    error of item k is thrown; the calls performed are exactly those of the
    items before k, in order, followed by those of the failed attempt on
    item k, so no later item is attempted; and the world is the one item k
    left when it ran from the world the earlier items produced: nothing
    they did is undone. *)
Theorem batch_stops_at_first_failure :
  (forall (before rest : list string) (dir : string) w calls w1 e,
     oneAfterTheOther (ensureDirectory home) before w = Some (calls, w1) ->
     value (ensureDirectory home dir w1) = Err e ->
     ensureDirectories home (before ++ dir :: rest) w =
       Outcome
         (map (fun d => Mkdir (expandHome home d)) (before ++ [dir]))
         (Err e)
         (after (ensureDirectory home dir w1))) /\
  (forall (files : jsobject) (before rest : list (string * string))
          filepath content options w calls w1 e,
     Object_entries files = before ++ (filepath, content) :: rest ->
     oneAfterTheOther
       (fun entry => writeFile home (fst entry) (snd entry) options)
       before w = Some (calls, w1) ->
     value (writeFile home filepath content options w1) = Err e ->
     writeFilesObject home files options w =
       Outcome
         (calls ++ trace (writeFile home filepath content options w1))
         (Err e)
         (after (writeFile home filepath content options w1))) /\
  (forall files : jsobject,
     exists indexed : list (N * (string * string)),
       Object_entries files =
         map snd indexed ++ filter (fun e => arrayIndex (fst e) = None) files /\
       Forall (fun ne => arrayIndex (fst (snd ne)) = Some (fst ne)) indexed /\
       StronglySorted N.le (map fst indexed) /\
       Permutation (map snd indexed)
         (filter (fun e => arrayIndex (fst e) <> None) files)) /\
  (forall files : jsobject,
     Forall (fun e => arrayIndex (fst e) = None) files ->
     Object_entries files = files).
Proof.
  split; [|split; [|split]].
  - intros before rest dir w calls w1 e Hbefore Hdir.
    unfold ensureDirectories.
    rewrite (for_push_stops _ before rest dir w calls w1 e Hbefore Hdir).
    rewrite (oneAfterTheOther_mkdirs _ _ _ _ Hbefore), ensureDirectory_run.
    by rewrite map_app.
  - intros files before rest filepath content options w calls w1 e
      Hentries Hbefore Hfile.
    unfold writeFilesObject, writeFiles. rewrite Hentries.
    apply (for_push_stops
             (fun entry => let '(fp, c) := entry in writeFile home fp c options)
             before rest (filepath, content) w calls w1 e); [|done].
    rewrite <- Hbefore. clear. revert w.
    induction before as [|[fp c] before IH]; intros w; [done|].
    cbn. by rewrite IH.
  - intros files.
    exists (sortByIndex
              (omap (fun e => (fun n => (n, e)) <$> arrayIndex (fst e)) files)).
    destruct (entries_indexed files) as [Hall Hmap].
    split; [done|]. split; [|split].
    + by rewrite sortByIndex_perm.
    + apply sortByIndex_sorted.
    + by rewrite sortByIndex_perm, Hmap.
  - apply Object_entries_plain.
Qed.

End BatchRuns.

(** C7, as stated, fails for a files object with keys that are array
    indices: inserted in the order ["b"], ["10"], ["9"], the three files are
    written in the order ["9"], ["10"], ["b"]. *)
Lemma writeFiles_takes_index_keys_first :
  let files := [("b", "x"); ("10", "y"); ("9", "z")] in
  let o := writeFilesObject Samples.home files ∅
             (MemFs.World ∅ ∅ Samples.stamp MemFs.healthy) in
  Object_entries files = [("9", "z"); ("10", "y"); ("b", "x")] /\
  Object_entries files <> files /\
  trace o = [Mkdir "."; WriteFile "9" "z";
             Mkdir "."; WriteFile "10" "y";
             Mkdir "."; WriteFile "b" "x"] /\
  value o = Ok [{| r_path := "9"; r_backup := None; r_created := true |};
               {| r_path := "10"; r_backup := None; r_created := true |};
               {| r_path := "b"; r_backup := None; r_created := true |}].
Proof.
  cbv zeta. split; [vm_compute; reflexivity|]. split; [discriminate|].
  split; vm_compute; reflexivity.
Qed.

(** The three directories of the batch scenario: the first is created, the
    second fails on the regular file in its way, the third is never
    attempted; a files object stops the same way. *)
Lemma batch_stops_at_first_failure_witness :
  (let o := ensureDirectories Samples.home ["/srv/a"; "/srv/etc/x"; "/srv/c"]
              Samples.blocked in
   value o = Err ENOTDIR /\
   trace o = [Mkdir "/srv/a"; Mkdir "/srv/etc/x"] /\
   "/srv/a" ∈ MemFs.dirs (after o) /\ "/srv/c" ∉ MemFs.dirs (after o)) /\
  (let o := writeFilesObject Samples.home
              [("/srv/a.txt", "1"); ("/srv/etc/b.txt", "2"); ("/srv/c.txt", "3")]
              ∅ Samples.blocked in
   value o = Err EEXIST /\
   trace o = [Mkdir "/srv"; WriteFile "/srv/a.txt" "1"; Mkdir "/srv/etc"] /\
   MemFs.files (after o) !! "/srv/a.txt"
     = Some (MemFs.File "1" Samples.mode_644) /\
   MemFs.files (after o) !! "/srv/c.txt" = None) /\
  (let o := writeFilesObject Samples.home
              [("/srv/etc/b.txt", "2"); ("7", "1"); ("/srv/c.txt", "3")]
              ∅ Samples.blocked in
   value o = Err EEXIST /\
   trace o = [Mkdir "."; WriteFile "7" "1"; Mkdir "/srv/etc"] /\
   MemFs.files (after o) !! "7" = Some (MemFs.File "1" Samples.mode_644) /\
   MemFs.files (after o) !! "/srv/c.txt" = None).
Proof.
  destruct (batch_stops_at_first_failure (W := MemFs.world) Samples.home)
    as (Hdirs & Hfiles & _ & Hplain).
  split; [|split].
  - cbv zeta.
    change ["/srv/a"; "/srv/etc/x"; "/srv/c"]
      with (["/srv/a"] ++ "/srv/etc/x" :: ["/srv/c"]).
    rewrite (Hdirs ["/srv/a"] ["/srv/c"] "/srv/etc/x" Samples.blocked
               [Mkdir "/srv/a"]
               (after (ensureDirectory Samples.home "/srv/a" Samples.blocked))
               ENOTDIR);
      [|vm_compute; reflexivity|vm_compute; reflexivity].
    split; [reflexivity|]. split; [vm_compute; reflexivity|].
    split; apply (bool_decide_unpack _); vm_compute; exact I.
  - cbv zeta.
    rewrite (Hfiles _ [("/srv/a.txt", "1")] [("/srv/c.txt", "3")]
               "/srv/etc/b.txt" "2" ∅ Samples.blocked
               [Mkdir "/srv"; WriteFile "/srv/a.txt" "1"]
               (after (writeFile Samples.home "/srv/a.txt" "1" ∅ Samples.blocked))
               EEXIST);
      [| apply Hplain; repeat constructor
       | vm_compute; reflexivity | vm_compute; reflexivity].
    repeat split; vm_compute; reflexivity.
  - cbv zeta.
    rewrite (Hfiles _ [("7", "1")] [("/srv/c.txt", "3")]
               "/srv/etc/b.txt" "2" ∅ Samples.blocked
               [Mkdir "."; WriteFile "7" "1"]
               (after (writeFile Samples.home "7" "1" ∅ Samples.blocked))
               EEXIST);
      [| vm_compute; reflexivity
       | vm_compute; reflexivity | vm_compute; reflexivity].
    repeat split; vm_compute; reflexivity.
Defined.

(** A file that is there but cannot be reached reads as absent. *)
Example exists_getStats_locked :
  MemFs.present Samples.locked Samples.conf = true /\
  value (exists_ Samples.home Samples.conf Samples.locked) = Ok false /\
  value (getStats Samples.home Samples.conf Samples.locked) = Ok None /\
  value (exists_ Samples.home Samples.conf Samples.empty_dir) = Ok false /\
  value (getStats Samples.home Samples.conf Samples.empty_dir) = Ok None.
Proof. repeat split; vm_compute; reflexivity. Qed.

(** The end-to-end scenario of the config-file entry point: a first write
    to an empty base, then a second one over it. *)
Example writeConfigFiles_twice :
  let first := writeConfigFiles Samples.home [("/base/config/app.ini", "x=1")]
                 ∅ Samples.empty_dir in
  let second := writeConfigFiles Samples.home [("/base/config/app.ini", "x=2")]
                  ∅ (after first) in
  value first
    = Ok [{| r_path := "/base/config/app.ini"; r_backup := None;
             r_created := true |}] /\
  MemFs.files (after first) !! "/base/config/app.ini"
    = Some (MemFs.File "x=1" mode_600) /\
  value second
    = Ok [{| r_path := "/base/config/app.ini";
             r_backup :=
               Some "/base/config/app.ini.backup-2026-01-26T12-34-56-789Z";
             r_created := false |}] /\
  MemFs.files (after second) !! "/base/config/app.ini"
    = Some (MemFs.File "x=2" mode_600) /\
  MemFs.files (after second)
    !! "/base/config/app.ini.backup-2026-01-26T12-34-56-789Z"
    = Some (MemFs.File "x=1" mode_600).
Proof. repeat split; vm_compute; reflexivity. Qed.

(** * Further properties of the helpers *)

(** ** Path expansion, once more *)

(** X1.  With an absolute home directory a second expansion changes nothing,
    neither on an expanded path nor on its parent directory: the helpers
    that expand a path their caller already expanded work on the same
    path. *)
Theorem expandHome_settles (home x : string) :
  path.isAbsolute home = true ->
  expandHome home (expandHome home x) = expandHome home x /\
  expandHome home (path.dirname (expandHome home x))
    = path.dirname (expandHome home x).
Proof.
  intros Hh. split; [by apply expandHome_idempotent|by apply expandHome_dirname].
Qed.

Lemma expandHome_settles_witness :
  expandHome "/home/user" (expandHome "/home/user" "~/mail/rc")
    = "/home/user/mail/rc" /\
  expandHome "/home/user" (path.dirname (expandHome "/home/user" "~/mail/rc"))
    = "/home/user/mail".
Proof.
  destruct (expandHome_settles "/home/user" "~/mail/rc") as [Hpath Hdir];
    [reflexivity|].
  split; [rewrite Hpath|rewrite Hdir]; reflexivity.
Defined.

(** The hypothesis is needed: a home directory that itself starts with the
    marker is expanded again and again. *)
Example expandHome_relative_home_drifts :
  expandHome "~/h" "~/x" = "~/h/x" /\
  expandHome "~/h" (expandHome "~/h" "~/x") = "~/h/h/x".
Proof. split; reflexivity. Qed.

(** X2.  The marker followed by a bare separator expands like the marker alone,
    and with an absolute home directory every path that starts with the
    marker and a separator expands to an absolute path. *)
Theorem expandHome_marked (home : string) :
  expandHome home "~/" = expandHome home "~" /\
  (path.isAbsolute home = true ->
   forall tail, path.isAbsolute (expandHome home ("~/" +:+ tail)) = true).
Proof.
  split; [reflexivity|].
  intros Hh tail. unfold expandHome.
  rewrite (startsWith_app "~/" tail). cbn [orb]. by apply join_absolute.
Qed.

Lemma expandHome_marked_witness :
  expandHome "/home/user" "~/" = "/home/user" /\
  path.isAbsolute (expandHome "/home/user" "~/../other/./x") = true /\
  expandHome "/home/user" "~/../other/./x" = "/home/other/x".
Proof.
  destruct (expandHome_marked "/home/user") as [Hslash Habs].
  split; [rewrite Hslash; reflexivity|].
  split; [apply (Habs eq_refl "../other/./x")|reflexivity].
Defined.

(** ** Batches and the write protocol, for any file system *)

Section MoreProtocol.
Context {W : Type} `{NodeFs W}.
Variable home : string.

Lemma perform_value_after {A} (c : call) (op : W -> result A * W) w :
  value (perform c op w) = fst (op w) /\ after (perform c op w) = snd (op w).
Proof. unfold perform. by destruct (op w). Qed.

(** The loop of [ensureDirectories], whatever the results array holds when
    it starts. *)
Lemma ensureDirectories_loop (dirs acc : list string) w created :
  value (for_push (ensureDirectory home) dirs acc w) = Ok created ->
  created = acc ++ map (expandHome home) dirs /\
  trace (for_push (ensureDirectory home) dirs acc w)
    = map (fun d => Mkdir (expandHome home d)) dirs.
Proof.
  revert acc w. induction dirs as [|d rest IH]; intros acc w.
  - cbn. intros [= <-]. by rewrite app_nil_r.
  - cbn [for_push map]. unfold bind. rewrite ensureDirectory_run.
    cbn [trace value after].
    destruct (fst (fs_mkdir (expandHome home d) w)); [|done].
    cbn [trace value after app]. intros Hc.
    destruct (IH _ _ Hc) as [-> ->]. by rewrite <- app_assoc.
Qed.

(** A property of every call of a loop body holds of every call of the
    loop. *)
Lemma for_push_calls {X R} (P : call -> Prop) (body : X -> M W R)
    (xs : list X) acc w :
  (forall x w', Forall P (trace (body x w'))) ->
  Forall P (trace (for_push body xs acc w)).
Proof.
  intros Hbody. revert acc w. induction xs as [|x xs IH]; intros acc w.
  - constructor.
  - cbn [for_push]. unfold bind.
    destruct (value (body x w)); cbn [trace]; [|apply Hbody].
    apply Forall_app. split; [apply Hbody|apply IH].
Qed.

(** What a [writeFile] that resolves went through: every step succeeded,
    the result object was built from the expanded path and the outcome of
    the backup step, and the world is the one the last step left. *)
Lemma writeFile_success (filepath content : string) (options : object) w r :
  value (writeFile home filepath content options w) = Ok r ->
  let p := expandHome home filepath in
  let stepB :=
    if truthy (prop options "backup") then backupFile home p else ret None in
  let stepC :=
    if isDefined (prop options "permissions")
    then fs.chmod p (prop options "permissions") else ret tt in
  let w1 := after (ensureDirectory home (path.dirname p) w) in
  let w2 := after (stepB w1) in
  let w3 := after (fs.writeFile p content w2) in
  r = {| r_path := p; r_backup := r_backup r;
         r_created := bool_decide (r_backup r = None) |} /\
  value (stepB w1) = Ok (r_backup r) /\
  value (fs.writeFile p content w2) = Ok tt /\
  value (stepC w3) = Ok tt /\
  after (writeFile home filepath content options w) = after (stepC w3).
Proof.
  intros Hr p stepB stepC w1 w2 w3. revert Hr.
  unfold writeFile. fold p. fold stepB stepC.
  destruct (value (ensureDirectory home (path.dirname p) w)) as [d|e] eqn:Hd.
  2:{ by rewrite (bind_err _ _ _ e Hd). }
  rewrite (bind_ok _ _ _ d Hd). cbn [value after]. fold w1.
  destruct (value (stepB w1)) as [b|e] eqn:Hb.
  2:{ by rewrite (bind_err _ _ _ e Hb). }
  rewrite (bind_ok _ _ _ b Hb). cbn [value after]. fold w2.
  destruct (value (fs.writeFile p content w2)) as [[]|e] eqn:Hu.
  2:{ by rewrite (bind_err _ _ _ e Hu). }
  rewrite (bind_ok _ _ _ tt Hu). cbn [value after]. fold w3.
  destruct (value (stepC w3)) as [[]|e] eqn:Hc.
  2:{ by rewrite (bind_err _ _ _ e Hc). }
  rewrite (bind_ok _ _ _ tt Hc). cbn [value after ret].
  intros [= <-]. by cbn.
Qed.

(** The calls of the backup step are of the backup kind, and none of them
    sets permissions. *)
Lemma backupFile_call_kinds (filepath : string) w :
  Forall (fun c => isBackupCall c = true /\ isChmodCall c = false)
    (trace (backupFile home filepath w)).
Proof.
  rewrite backupFile_run. cbv zeta.
  destruct (fst (fs_access _ w)); repeat constructor.
Qed.

(** The calls of [writeFile], step by step: without [backup] no call of the
    backup kind is made, without [permissions] no permission is set. *)
Lemma writeFile_call_kinds (filepath content : string) (options : object) w :
  (truthy (prop options "backup") = false ->
   Forall (fun c => isBackupCall c = false)
     (trace (writeFile home filepath content options w))) /\
  (isDefined (prop options "permissions") = false ->
   Forall (fun c => isChmodCall c = false)
     (trace (writeFile home filepath content options w))).
Proof.
  destruct (writeFile_order home filepath content options w) as [[k Hk] _].
  revert Hk. unfold writePlan. set (p := expandHome home filepath).
  set (w1 := after (ensureDirectory home (path.dirname p) w)).
  intros Hk. split; intros Hopt.
  - assert (Forall (fun c => isBackupCall c = false)
              (trace (writeFile home filepath content options w) ++ k)) as Hall.
    { rewrite <- Hk, Hopt. cbn [app].
      destruct (isDefined _); repeat constructor. }
    by apply Forall_app in Hall as [? _].
  - assert (Forall (fun c => isChmodCall c = false)
              (trace (writeFile home filepath content options w) ++ k)) as Hall.
    { rewrite <- Hk, Hopt. constructor; [done|].
      apply Forall_app. split; [|repeat constructor].
      destruct (truthy _); [|constructor].
      eapply Forall_impl; [apply backupFile_call_kinds|].
      by intros c [_ ?]. }
    by apply Forall_app in Hall as [? _].
Qed.


Lemma backup_step_resolves (p : string) (options : object) w :
  exists b,
    value ((if truthy (prop options "backup") then backupFile home p
            else ret None) w) = Ok b.
Proof.
  destruct (truthy _); [apply backupFile_never_throws|by eexists].
Qed.

(** X8.  [writeFile] without [backup] makes no existence check, reads no clock
    and copies nothing; when it resolves, the result says [created: true]
    and [backup: null], whether or not a file was there before. *)
Theorem writeFile_without_backup (filepath content : string)
    (options : object) w :
  truthy (prop options "backup") = false ->
  Forall (fun c => isBackupCall c = false)
    (trace (writeFile home filepath content options w)) /\
  (forall r, value (writeFile home filepath content options w) = Ok r ->
             r = {| r_path := expandHome home filepath; r_backup := None;
                    r_created := true |}).
Proof.
  intros Hopt. split.
  - by apply writeFile_call_kinds.
  - intros r Hr. destruct (writeFile_success _ _ _ _ _ Hr) as (Hshape & Hb & _).
    rewrite Hopt in Hb. injection Hb as Hb. rewrite <- Hb in Hshape.
    by rewrite Hshape.
Qed.

(** X9.  [writeFile] without [permissions] never sets a permission, and when it
    resolves the content write is its last call; with [permissions] the
    last call of a [writeFile] that resolves sets them on the expanded
    path. *)
Theorem writeFile_last_call (filepath content : string) (options : object)
    w r :
  value (writeFile home filepath content options w) = Ok r ->
  let p := expandHome home filepath in
  if isDefined (prop options "permissions")
  then last (trace (writeFile home filepath content options w))
       = Some (Chmod p (prop options "permissions"))
  else last (trace (writeFile home filepath content options w))
       = Some (WriteFile p content) /\
       Forall (fun c => isChmodCall c = false)
         (trace (writeFile home filepath content options w)).
Proof.
  intros Hr p.
  destruct (writeFile_order home filepath content options w) as [_ Hfull].
  destruct (writeFile_call_kinds filepath content options w) as [_ Hnone].
  specialize (Hfull r Hr). fold p in Hfull. unfold writePlan in Hfull.
  set (dir := expandHome home (path.dirname p)) in Hfull.
  set (calls := if truthy (prop options "backup")
                then trace (backupFile home p
                              (after (ensureDirectory home (path.dirname p) w)))
                else []) in Hfull.
  destruct (isDefined (prop options "permissions")) eqn:Hperm.
  - rewrite Hfull.
    replace (Mkdir dir :: calls ++
             [WriteFile p content; Chmod p (prop options "permissions")])
      with ((Mkdir dir :: calls ++ [WriteFile p content]) ++
            [Chmod p (prop options "permissions")])
      by (cbn [app]; by rewrite <- app_assoc).
    apply last_snoc.
  - split; [|by apply Hnone].
    rewrite Hfull, app_comm_cons. apply last_snoc.
Qed.

(** X10.  [writeFile] is not atomic: when the content write went through and the
    permission set is rejected, the call rejects with that error after all
    its calls were made, and the world is the one the rejected permission
    set left; the write is not undone. *)
Theorem writeFile_chmod_failure (filepath content : string)
    (options : object) w d e :
  let p := expandHome home filepath in
  let stepB :=
    if truthy (prop options "backup") then backupFile home p else ret None in
  let w1 := after (ensureDirectory home (path.dirname p) w) in
  let w2 := after (stepB w1) in
  let w3 := after (fs.writeFile p content w2) in
  value (ensureDirectory home (path.dirname p) w) = Ok d ->
  value (fs.writeFile p content w2) = Ok tt ->
  isDefined (prop options "permissions") = true ->
  value (fs.chmod p (prop options "permissions") w3) = Err e ->
  writeFile home filepath content options w =
    Outcome
      (writePlan (expandHome home (path.dirname p)) p content options
         (trace (stepB w1)))
      (Err e)
      (after (fs.chmod p (prop options "permissions") w3)).
Proof.
  intros p stepB w1 w2 w3 Hd Hu Hperm Hc.
  unfold writeFile, writePlan. fold p. fold stepB. rewrite Hperm.
  rewrite (bind_ok _ _ _ d Hd). cbn [trace value after]. fold w1.
  destruct (backup_step_resolves p options w1) as [b Hb]. fold stepB in Hb.
  rewrite (bind_ok _ _ _ b Hb). cbn [trace value after]. fold w2.
  rewrite (bind_ok _ _ _ tt Hu). cbn [trace value after]. fold w3.
  rewrite (bind_err _ _ _ e Hc). cbn [trace value after].
  rewrite ensureDirectory_trace. unfold fs.writeFile, fs.chmod.
  rewrite !perform_trace. reflexivity.
Qed.

Lemma append_length (a b : string) :
  String.length (a +:+ b) = (String.length a + String.length b)%nat.
Proof. induction a as [|c a IH]; [done|]. exact (f_equal S IH). Qed.

(** X5.  When the existence check and the copy both succeed, [backupFile] makes
    exactly three calls (check, clock, copy) and resolves to the path it
    copied to.  That path is the expanded path, then [".backup-"], then the
    ISO string with each colon and period replaced: it starts with the
    expanded path, is never the expanded path itself, and its timestamp
    holds no colon and no period. *)
Theorem backupFile_success (filepath : string) w w1 iso w2 w3 :
  let p := expandHome home filepath in
  let b := p +:+ ".backup-" +:+ JsString.replaceColonDot iso in
  fs_access p w = (Ok tt, w1) ->
  date_toISOString w1 = (iso, w2) ->
  fs_copyFile p b w2 = (Ok tt, w3) ->
  backupFile home filepath w =
    Outcome [Access p; Now; CopyFile p b] (Ok (Some b)) w3 /\
  b <> p /\
  JsString.startsWith p b = true /\
  String.length b = (String.length p + 8 + String.length iso)%nat /\
  (forall i c, String.get i (JsString.replaceColonDot iso) = Some c ->
               c <> ":"%char /\ c <> "."%char).
Proof.
  intros p b Hacc Hnow Hcopy. split; [|split; [|split; [|split]]].
  - rewrite backupFile_run. fold p. rewrite Hacc. cbn [fst snd].
    rewrite Hnow. cbn [fst snd]. fold b. by rewrite Hcopy.
  - by apply append_ne.
  - apply startsWith_app.
  - unfold b. rewrite !append_length, replaceColonDot_length. cbn. lia.
  - intros i c. apply replaceColonDot_clean.
Qed.

Lemma writeFiles_loop_paths (options : object)
    (files : list (string * string)) (acc : list WriteResult) w rs :
  value (for_push
           (fun entry => let '(filepath, content) := entry in
                         writeFile home filepath content options)
           files acc w) = Ok rs ->
  map r_path rs
    = map r_path acc ++ map (fun entry => expandHome home (fst entry)) files.
Proof.
  revert acc w. induction files as [|[filepath content] rest IH]; intros acc w.
  - cbn. intros [= <-]. by rewrite app_nil_r.
  - cbn [for_push map fst].
    destruct (value (writeFile home filepath content options w)) as [r|e] eqn:Hr.
    2:{ by rewrite (bind_err _ _ _ e Hr). }
    rewrite (bind_ok _ _ _ r Hr). cbn [value]. intros Hrs.
    rewrite (IH _ _ Hrs), map_app, <- app_assoc. cbn [map app].
    destruct (writeFile_success _ _ _ _ _ Hr) as (-> & _). done.
Qed.

(** X13.  When [writeFiles] resolves, the array holds one result per entry, in
    the order of the entries, and the [path] of each is the expanded key of
    its entry. *)
Theorem writeFiles_results (files : list (string * string))
    (options : object) w rs :
  value (writeFiles home files options w) = Ok rs ->
  map r_path rs = map (fun entry => expandHome home (fst entry)) files /\
  length rs = length files.
Proof.
  intros Hrs. apply writeFiles_loop_paths in Hrs. cbn [map app] in Hrs.
  split; [done|].
  rewrite <- (length_map r_path rs), Hrs. apply length_map.
Qed.

(** X14.  The defaults of [writeConfigFiles] give way to whatever the caller
    supplies, [undefined] and falsy values included: with
    [permissions: undefined] no permission is ever set, and with a falsy
    [backup] no backup call is ever made. *)
Theorem writeConfigFiles_overrides (files : list (string * string))
    (options : object) w :
  (options !! "permissions" = Some JUndefined ->
   Forall (fun c => isChmodCall c = false)
     (trace (writeConfigFiles home files options w))) /\
  (forall v, options !! "backup" = Some v -> truthy v = false ->
   Forall (fun c => isBackupCall c = false)
     (trace (writeConfigFiles home files options w))).
Proof.
  unfold writeConfigFiles, writeFiles. split.
  - intros Hopt. apply for_push_calls. intros [filepath content] w'.
    apply writeFile_call_kinds. unfold prop, spread.
    by rewrite (lookup_union_Some_l _ _ _ _ Hopt).
  - intros v Hopt Hv. apply for_push_calls. intros [filepath content] w'.
    apply writeFile_call_kinds. unfold prop, spread.
    by rewrite (lookup_union_Some_l _ _ _ _ Hopt).
Qed.

(** X4.  When [setupStandardMuttDirs] resolves, it made five directory
    creations, one per entry of the layout and in its order, each on the
    expansion of the entry joined to the base directory, and every field of
    the result holds the directory created for it.  The base directory is
    the marker when [baseDir] is left out or empty, so that the directories
    are then those of the layout joined to the home directory. *)
Theorem setupStandardMuttDirs_result (baseDir : option string) w r :
  value (setupStandardMuttDirs home baseDir w) = Ok r ->
  let base :=
    match baseDir with
    | Some s => if String.eqb s "" then "~" else s
    | None => "~"
    end in
  let created := fun dir => expandHome home (path.join [base; dir]) in
  r = {| config := Some (created ".config/mutt");
         accounts := Some (created ".config/mutt/accounts");
         tokens := Some (created ".local/etc/oauth-tokens");
         cacheHeaders := Some (created ".cache/mutt/headers");
         cacheBodies := Some (created ".cache/mutt/bodies") |} /\
  trace (setupStandardMuttDirs home baseDir w)
    = map (fun dir => Mkdir (created dir)) STANDARD_MUTT_DIRS /\
  (base = "~" ->
   forall dir, dir ∈ STANDARD_MUTT_DIRS -> created dir = path.join [home; dir]).
Proof.
  intros Hr base created. revert Hr. unfold setupStandardMuttDirs. fold base.
  set (dirs := map (fun dir => path.join [base; dir]) STANDARD_MUTT_DIRS).
  destruct (value (ensureDirectories home dirs w)) as [made|e] eqn:Hmade.
  2:{ by rewrite (bind_err _ _ _ e Hmade). }
  rewrite (bind_ok _ _ _ made Hmade). cbn [trace value after ret].
  apply ensureDirectories_loop in Hmade as [-> Htrace].
  fold (ensureDirectories home dirs) in Htrace. rewrite Htrace, app_nil_r.
  intros [= <-]. split; [done|]. split.
  - unfold dirs. by rewrite map_map.
  - intros -> dir Hdir. unfold created.
    repeat (apply elem_of_cons in Hdir as [->|Hdir]; [reflexivity|]).
    by apply elem_of_nil in Hdir.
Qed.

(** X16.  With an absolute home directory, an [ensureDirectoriesFromPaths] that
    resolves returns exactly the list of directories it scheduled: each one
    once, one creation per directory, in the order of the list. *)
Theorem ensureDirectoriesFromPaths_created (paths : list (string * string))
    w created :
  path.isAbsolute home = true ->
  value (ensureDirectoriesFromPaths home paths w) = Ok created ->
  created = collectDirs home paths [] /\
  NoDup created /\
  trace (ensureDirectoriesFromPaths home paths w) = map Mkdir created.
Proof.
  intros Hh Hc. unfold ensureDirectoriesFromPaths, ensureDirectories in *.
  apply ensureDirectories_loop in Hc as [-> Htrace]. cbn [app].
  assert (map (expandHome home) (collectDirs home paths [])
          = collectDirs home paths []) as Hfixed.
  { rewrite <- (map_id (collectDirs home paths [])) at 2.
    apply map_ext_in. intros d Hd. apply list_elem_of_In in Hd.
    apply collectDirs_elem in Hd as [Hd|(key & filepath & _ & Hd)].
    { by apply elem_of_nil in Hd. }
    destruct Hd as [[_ ->]|[_ ->]].
    - by apply expandHome_dirname.
    - by apply expandHome_idempotent. }
  rewrite Hfixed. split; [done|]. split.
  - apply collectDirs_NoDup, NoDup_nil_2.
  - rewrite Htrace, <- (map_map (expandHome home) Mkdir). by rewrite Hfixed.
Qed.

End MoreProtocol.

(** ** Writing in the in-memory file system *)

Lemma memfs_ensureDirectory_keeps (home dir : string) (w : MemFs.world) :
  MemFs.files (after (ensureDirectory home dir w)) = MemFs.files w /\
  MemFs.clock (after (ensureDirectory home dir w)) = MemFs.clock w.
Proof.
  rewrite ensureDirectory_run. cbn [after fs_mkdir MemFs.node].
  unfold MemFs.mkdir, MemFs.guarded.
  destruct (MemFs.fault w _); [done|].
  destruct (bool_decide _); [done|]. by destruct (existsb _ _).
Qed.

(** In the in-memory file system [backupFile] either resolves to [null]
    and leaves the world as it was, or resolves to the backup path after
    putting a copy of the file there. *)
Lemma memfs_backupFile_cases (home filepath : string) (w : MemFs.world) :
  let p := expandHome home filepath in
  let b := p +:+ ".backup-" +:+ JsString.replaceColonDot (MemFs.clock w) in
  let o := backupFile home filepath w in
  (value o = Ok None /\ after o = w) \/
  (exists f, MemFs.files w !! p = Some f /\
             value o = Ok (Some b) /\ after o = MemFs.put b f w).
Proof.
  intros p b o. subst o. rewrite backupFile_run. fold p.
  cbn [fs_access fs_copyFile date_toISOString MemFs.node].
  unfold MemFs.access, MemFs.guarded.
  destruct (MemFs.fault w (Access p)); [by left|].
  destruct (MemFs.present w p); [|by left].
  cbn [fst snd]. fold b. unfold MemFs.copyFile, MemFs.guarded.
  destruct (MemFs.fault w (CopyFile p b)); [by left|].
  destruct (MemFs.files w !! p) as [f|] eqn:Hf.
  - destruct (bool_decide (b ∈ MemFs.dirs w)); [by left|].
    destruct (bool_decide (path.dirname b ∈ MemFs.dirs w)); [|by left].
    right. by exists f.
  - destruct (bool_decide (p ∈ MemFs.dirs w)); by left.
Qed.

Lemma memfs_writeFile_ok (p data : string) (w : MemFs.world) :
  fst (MemFs.writeFile p data w) = Ok tt ->
  exists md, snd (MemFs.writeFile p data w) = MemFs.put p (MemFs.File data md) w.
Proof.
  unfold MemFs.writeFile, MemFs.guarded.
  destruct (MemFs.fault w _); [done|].
  destruct (bool_decide (p ∈ MemFs.dirs w)); [done|].
  destruct (bool_decide (path.dirname p ∈ MemFs.dirs w)); [|done].
  intros _. by eexists.
Qed.

Lemma memfs_chmod_ok (p : string) (m : jsval) (w : MemFs.world) (f : MemFs.file) :
  MemFs.files w !! p = Some f ->
  fst (MemFs.chmod p m w) = Ok tt ->
  exists bits, MemFs.parseFileMode m = Some bits /\
    snd (MemFs.chmod p m w)
      = MemFs.put p (MemFs.File (MemFs.content f)
                       (Z.land bits MemFs.modeMask)) w.
Proof.
  intros Hf. unfold MemFs.chmod, MemFs.guarded.
  destruct (MemFs.parseFileMode m) as [bits|]; [|done].
  destruct (MemFs.fault w _); [done|].
  rewrite Hf. intros _. by exists bits.
Qed.

(** The files a [writeFile] that resolved leaves behind: the files there
    were, with the backup put in when one was made, and with the target
    holding the new content; permissions that were asked for passed the
    argument check, and the file has their permission bits. *)
Lemma memfs_writeFile_files (home filepath content : string)
    (options : object) (w : MemFs.world) r :
  value (writeFile home filepath content options w) = Ok r ->
  let p := expandHome home filepath in
  let p' := expandHome home p in
  let b := p' +:+ ".backup-" +:+ JsString.replaceColonDot (MemFs.clock w) in
  exists md mid,
    MemFs.files (after (writeFile home filepath content options w))
      = <[p := MemFs.File content md]> mid /\
    (isDefined (prop options "permissions") = true ->
     exists bits,
       MemFs.parseFileMode (prop options "permissions") = Some bits /\
       md = Z.land bits MemFs.modeMask) /\
    ((r_backup r = None /\ mid = MemFs.files w) \/
     (exists f, r_backup r = Some b /\ MemFs.files w !! p' = Some f /\
                mid = <[b := f]> (MemFs.files w))).
Proof.
  intros Hr p p' b.
  destruct (writeFile_success home _ _ _ _ _ Hr) as (_ & Hb & Hu & Hc & ->).
  fold p in Hb, Hu, Hc |- *. revert Hb Hu Hc.
  destruct (memfs_ensureDirectory_keeps home (path.dirname p) w) as [Hfiles Hclock].
  set (w1 := after (ensureDirectory home (path.dirname p) w)) in *.
  set (stepB := if truthy (prop options "backup") then backupFile home p
                else ret None).
  intros Hb.
  assert ((r_backup r = None /\ MemFs.files (after (stepB w1)) = MemFs.files w) \/
          (exists f, r_backup r = Some b /\ MemFs.files w !! p' = Some f /\
                     MemFs.files (after (stepB w1)) = <[b := f]> (MemFs.files w)))
    as Hmid.
  { subst stepB. destruct (truthy (prop options "backup")).
    - destruct (memfs_backupFile_cases home p w1) as [[Hv ->]|(f & Hf & Hv & ->)].
      + left. rewrite Hv in Hb. injection Hb as <-. done.
      + right. exists f. rewrite Hv in Hb. injection Hb as <-.
        fold p'. rewrite Hclock, <- Hfiles. fold p' in Hf. by cbn.
    - left. injection Hb as <-. done. }
  set (w2 := after (stepB w1)) in *.
  unfold fs.writeFile. intros Hu.
  destruct (perform_value_after (WriteFile p content) (fs_writeFile p content) w2)
    as [Hv Ha].
  rewrite Hv in Hu. cbn [fs_writeFile MemFs.node] in Hu, Ha |- *.
  destruct (memfs_writeFile_ok p content w2 Hu) as [md0 Hw3].
  rewrite Ha, Hw3.
  destruct (isDefined (prop options "permissions")) eqn:Hperm.
  - unfold fs.chmod. intros Hc.
    destruct (perform_value_after (Chmod p (prop options "permissions"))
                (fs_chmod p (prop options "permissions"))
                (MemFs.put p (MemFs.File content md0) w2)) as [Hvc Hac].
    rewrite Hvc in Hc. cbn [fs_chmod MemFs.node] in Hc, Hac |- *.
    destruct (memfs_chmod_ok p _ _ (MemFs.File content md0)
                (lookup_insert_eq _ _ _) Hc) as (bits & Hbits & Hw4).
    rewrite Hac, Hw4. exists (Z.land bits MemFs.modeMask), (MemFs.files w2).
    split; [cbn; by rewrite insert_insert_eq|]. split; [|done].
    intros _. by exists bits.
  - intros _. cbn [after ret]. exists md0, (MemFs.files w2).
    split; [done|]. split; [done|done].
Qed.

(** X11.  A [writeFile] that resolves leaves the new content, whole, at
    the expanded path.  Permissions that were given passed the argument
    check of [fs.chmod] (an integer that fits 32 unsigned bits, or a string
    of octal digits), and the file has their low twelve bits as permission
    bits. *)
Theorem writeFile_installs_content (home filepath content : string)
    (options : object) (w : MemFs.world) r :
  value (writeFile home filepath content options w) = Ok r ->
  let p := expandHome home filepath in
  let w' := after (writeFile home filepath content options w) in
  exists md,
    MemFs.files w' !! p = Some (MemFs.File content md) /\
    (isDefined (prop options "permissions") = true ->
     exists bits,
       MemFs.parseFileMode (prop options "permissions") = Some bits /\
       md = Z.land bits MemFs.modeMask) /\
    (forall m, prop options "permissions" = JNum m ->
               (0 <= m <= 4294967295)%Z /\ md = Z.land m MemFs.modeMask).
Proof.
  intros Hr p w'.
  destruct (memfs_writeFile_files home _ _ _ _ _ Hr) as (md & mid & Hw' & Hmd & _).
  fold p in Hw'. fold w' in Hw'. exists md.
  split; [rewrite Hw'; apply lookup_insert_eq|]. split; [done|].
  intros m Hm. rewrite Hm in Hmd. destruct (Hmd eq_refl) as (bits & Hbits & ->).
  cbn [MemFs.parseFileMode] in Hbits. unfold MemFs.uint32 in Hbits.
  destruct ((0 <=? m)%Z && (m <=? 4294967295)%Z) eqn:Hrange; [|done].
  injection Hbits as <-. apply andb_true_iff in Hrange as [Hlo Hhi]. lia.
Qed.

(** The mode [0o200600] leaves the permission bits [0o600]. *)
Lemma writeFile_installs_content_witness :
  let w' := after (writeFile Samples.home Samples.conf "x=2"
                     {[ "permissions" := JNum (2 * 32768 + mode_600) ]}
                     Samples.installed) in
  MemFs.files w' !! Samples.conf = Some (MemFs.File "x=2" mode_600).
Proof.
  destruct (writeFile_installs_content Samples.home Samples.conf "x=2"
              {[ "permissions" := JNum (2 * 32768 + mode_600) ]}
              Samples.installed
              {| r_path := Samples.conf; r_backup := None; r_created := true |})
    as (md & Hconf & _ & Hmd); [vm_compute; reflexivity|].
  destruct (Hmd (2 * 32768 + mode_600)%Z) as [_ ->]; [vm_compute; reflexivity|].
  exact Hconf.
Defined.

(** X12.  With an absolute home directory, the backup a [writeFile] that resolved
    reports is the expanded path followed by [".backup-"] and the
    timestamp, and the file there is the one the target was before the
    call, content and permissions. *)
Theorem writeFile_backup_keeps_old_file (home filepath content : string)
    (options : object) (w : MemFs.world) r bk :
  path.isAbsolute home = true ->
  value (writeFile home filepath content options w) = Ok r ->
  r_backup r = Some bk ->
  let p := expandHome home filepath in
  bk = p +:+ ".backup-" +:+ JsString.replaceColonDot (MemFs.clock w) /\
  exists f, MemFs.files w !! p = Some f /\
            MemFs.files (after (writeFile home filepath content options w)) !! bk
              = Some f.
Proof.
  intros Hh Hr Hbk p.
  destruct (memfs_writeFile_files home _ _ _ _ _ Hr) as (md & mid & Hw' & _ & Hmid).
  fold p in Hw', Hmid.
  assert (expandHome home p = p) as Hpp
    by apply (expandHome_idempotent home filepath Hh).
  rewrite Hpp in Hmid.
  destruct Hmid as [[Hnone _]|(f & Hsome & Hf & ->)]; [congruence|].
  rewrite Hbk in Hsome. injection Hsome as ->. split; [done|].
  exists f. split; [done|]. rewrite Hw'.
  rewrite lookup_insert_ne by (apply not_eq_sym, append_ne; done).
  apply lookup_insert_eq.
Qed.

Lemma writeFile_backup_keeps_old_file_witness :
  MemFs.files
    (after (writeFile Samples.home Samples.conf "x=2"
              {[ "backup" := JBool true ]} Samples.installed))
    !! Samples.conf_backup
  = Some (MemFs.File "x=1" Samples.mode_644).
Proof.
  destruct (writeFile_backup_keeps_old_file Samples.home Samples.conf "x=2"
              {[ "backup" := JBool true ]} Samples.installed
              {| r_path := Samples.conf; r_backup := Some Samples.conf_backup;
                 r_created := false |}
              Samples.conf_backup)
    as (_ & f & Hold & Hkept);
    [reflexivity|vm_compute; reflexivity|reflexivity|].
  rewrite Hkept, <- Hold. vm_compute. reflexivity.
Defined.

(** X15.  [writeConfigFiles] called without [permissions] leaves the file of the
    entry with its new content and owner-only permissions [0o600],
    whatever permissions a file at that path had before. *)
Theorem writeConfigFiles_secures_file (home filepath content : string)
    (options : object) (w : MemFs.world) rs :
  options !! "permissions" = None ->
  value (writeConfigFiles home [(filepath, content)] options w) = Ok rs ->
  MemFs.files (after (writeConfigFiles home [(filepath, content)] options w))
    !! expandHome home filepath
  = Some (MemFs.File content mode_600).
Proof.
  intros Hopt. unfold writeConfigFiles, writeFiles. cbn [for_push].
  set (effective := spread _ options).
  destruct (value (writeFile home filepath content effective w)) as [r|e] eqn:Hr.
  2:{ by rewrite (bind_err _ _ _ e Hr). }
  rewrite (bind_ok _ _ _ r Hr). cbn [value after ret]. intros _.
  destruct (memfs_writeFile_files home _ _ _ _ _ Hr) as (md & mid & -> & Hmd & _).
  rewrite lookup_insert_eq. f_equal. f_equal.
  assert (prop effective "permissions" = JNum mode_600) as Hperm.
  { unfold prop, effective, spread. rewrite lookup_union_r by done.
    reflexivity. }
  rewrite Hperm in Hmd. destruct (Hmd eq_refl) as (bits & Hbits & ->).
  injection Hbits as <-. reflexivity.
Qed.

Lemma writeConfigFiles_secures_file_witness :
  MemFs.files
    (after (writeConfigFiles Samples.home [(Samples.conf, "x=2")]
              {[ "backup" := JBool false ]} Samples.installed))
    !! Samples.conf
  = Some (MemFs.File "x=2" mode_600).
Proof.
  apply (writeConfigFiles_secures_file Samples.home Samples.conf "x=2"
           {[ "backup" := JBool false ]} Samples.installed
           [{| r_path := Samples.conf; r_backup := None; r_created := true |}]).
  - reflexivity.
  - vm_compute. reflexivity.
Defined.

(** ** The further properties on sample worlds *)

Lemma ensureDirectories_calls_witness :
  let o := ensureDirectories Samples.home ["~/.config/mutt"; "/srv/data"]
             Samples.empty_dir in
  trace o = [Mkdir "/home/user/.config/mutt"; Mkdir "/srv/data"] /\
  value o = Ok ["/home/user/.config/mutt"; "/srv/data"].
Proof.
  destruct (ensureDirectories_calls Samples.home
              ["~/.config/mutt"; "/srv/data"] Samples.empty_dir)
    as [_ Hfull].
  destruct (Hfull ["/home/user/.config/mutt"; "/srv/data"]) as [Htrace _];
    [vm_compute; reflexivity|].
  split; [exact Htrace|vm_compute; reflexivity].
Defined.

Lemma writeFile_result_witness :
  value (backupFile Samples.home Samples.conf
           (after (ensureDirectory Samples.home "/etc/app" Samples.installed)))
  = Ok (Some Samples.conf_backup).
Proof.
  destruct (writeFile_result Samples.home Samples.conf "x=2"
              {[ "backup" := JBool true ]} Samples.installed
              {| r_path := Samples.conf; r_backup := Some Samples.conf_backup;
                 r_created := false |})
    as (_ & _ & Hbackup); [vm_compute; reflexivity|].
  symmetry. exact Hbackup.
Defined.

Lemma writeFile_order_absolute_witness :
  trace (writeFile Samples.home Samples.conf "x=2"
           {[ "backup" := JBool true; "permissions" := JNum mode_600 ]}
           Samples.installed)
  = [Mkdir "/etc/app"; Access Samples.conf; Now;
     CopyFile Samples.conf Samples.conf_backup;
     WriteFile Samples.conf "x=2"; Chmod Samples.conf (JNum mode_600)].
Proof.
  destruct (writeFile_order_absolute Samples.home Samples.conf "x=2"
              {[ "backup" := JBool true; "permissions" := JNum mode_600 ]}
              Samples.installed eq_refl)
    as (_ & Hfull & _).
  rewrite (Hfull {| r_path := Samples.conf;
                    r_backup := Some Samples.conf_backup;
                    r_created := false |})
    by (vm_compute; reflexivity).
  vm_compute. reflexivity.
Defined.

(** The file is there before the call, and the result still says
    [created: true]. *)
Lemma writeFile_without_backup_witness :
  let o := writeFile Samples.home Samples.conf "x=2" ∅ Samples.installed in
  MemFs.present Samples.installed Samples.conf = true /\
  trace o = [Mkdir "/etc/app"; WriteFile Samples.conf "x=2"] /\
  value o
    = Ok {| r_path := Samples.conf; r_backup := None; r_created := true |}.
Proof.
  destruct (writeFile_without_backup Samples.home Samples.conf "x=2" ∅
              Samples.installed) as [_ Hresult]; [vm_compute; reflexivity|].
  split; [reflexivity|]. split; [vm_compute; reflexivity|].
  destruct (value (writeFile Samples.home Samples.conf "x=2" ∅
                     Samples.installed)) as [r|e] eqn:Hvalue.
  - rewrite (Hresult r eq_refl). reflexivity.
  - vm_compute in Hvalue. discriminate Hvalue.
Defined.

Lemma writeFile_last_call_witness :
  last (trace (writeFile Samples.home Samples.conf "x=2"
                 {[ "permissions" := JNum mode_600 ]} Samples.installed))
  = Some (Chmod Samples.conf (JNum mode_600)).
Proof.
  assert (value (writeFile Samples.home Samples.conf "x=2"
                   {[ "permissions" := JNum mode_600 ]} Samples.installed)
          = Ok {| r_path := Samples.conf; r_backup := None; r_created := true |})
    as Hvalue by (vm_compute; reflexivity).
  exact (writeFile_last_call Samples.home Samples.conf "x=2"
           {[ "permissions" := JNum mode_600 ]} Samples.installed _ Hvalue).
Defined.

(** Permissions that are not a file mode are refused when they are set,
    after the content was replaced. *)
Lemma writeFile_chmod_failure_witness :
  let o := writeFile Samples.home Samples.conf "x=2"
             {[ "permissions" := JStr "rw-------" ]} Samples.installed in
  value o = Err EINVAL /\
  MemFs.files (after o) !! Samples.conf
    = Some (MemFs.File "x=2" Samples.mode_644).
Proof.
  cbv zeta.
  rewrite (writeFile_chmod_failure Samples.home Samples.conf "x=2"
             {[ "permissions" := JStr "rw-------" ]} Samples.installed
             "/etc/app" EINVAL);
    [|vm_compute; reflexivity..].
  split; vm_compute; reflexivity.
Defined.

Lemma backupFile_success_witness :
  backupFile Samples.home Samples.conf Samples.installed =
    Outcome
      [Access Samples.conf; Now; CopyFile Samples.conf Samples.conf_backup]
      (Ok (Some Samples.conf_backup))
      (MemFs.put Samples.conf_backup (MemFs.File "x=1" Samples.mode_644)
         Samples.installed) /\
  Samples.conf_backup <> Samples.conf /\
  String.length Samples.conf_backup = 49%nat.
Proof.
  destruct (backupFile_success Samples.home Samples.conf Samples.installed
              Samples.installed Samples.stamp Samples.installed
              (MemFs.put Samples.conf_backup
                 (MemFs.File "x=1" Samples.mode_644) Samples.installed))
    as (Hrun & Hne & _ & Hlen & _);
    [vm_compute; reflexivity..|].
  split; [exact Hrun|]. split; [exact Hne|exact Hlen].
Defined.

Lemma writeFiles_results_witness :
  value (writeFiles Samples.home [("~/a/one", "1"); ("/srv/two", "2")] ∅
           Samples.empty_dir)
  = Ok [{| r_path := "/home/user/a/one"; r_backup := None; r_created := true |};
        {| r_path := "/srv/two"; r_backup := None; r_created := true |}] /\
  map (fun entry => expandHome Samples.home (fst entry))
    [("~/a/one", "1"); ("/srv/two", "2")]
  = ["/home/user/a/one"; "/srv/two"].
Proof.
  assert (value (writeFiles Samples.home [("~/a/one", "1"); ("/srv/two", "2")]
                   ∅ Samples.empty_dir)
          = Ok [{| r_path := "/home/user/a/one"; r_backup := None;
                   r_created := true |};
                {| r_path := "/srv/two"; r_backup := None; r_created := true |}])
    as Hrs by (vm_compute; reflexivity).
  split; [exact Hrs|].
  destruct (writeFiles_results Samples.home _ _ _ _ Hrs) as [<- _].
  reflexivity.
Defined.

(** With [permissions: undefined] the file is written and keeps the
    permissions it had. *)
Lemma writeConfigFiles_overrides_witness :
  let o := writeConfigFiles Samples.home [(Samples.conf, "x=2")]
             {[ "permissions" := JUndefined ]} Samples.installed in
  Forall (fun c => isChmodCall c = false) (trace o) /\
  MemFs.files (after o) !! Samples.conf
    = Some (MemFs.File "x=2" Samples.mode_644).
Proof.
  destruct (writeConfigFiles_overrides Samples.home [(Samples.conf, "x=2")]
              {[ "permissions" := JUndefined ]} Samples.installed)
    as [Hnone _].
  split; [apply Hnone; reflexivity|vm_compute; reflexivity].
Defined.

Lemma setupStandardMuttDirs_result_witness :
  value (setupStandardMuttDirs Samples.home (Some "") Samples.empty_dir)
  = Ok {| config := Some "/home/user/.config/mutt";
          accounts := Some "/home/user/.config/mutt/accounts";
          tokens := Some "/home/user/.local/etc/oauth-tokens";
          cacheHeaders := Some "/home/user/.cache/mutt/headers";
          cacheBodies := Some "/home/user/.cache/mutt/bodies" |}.
Proof.
  destruct (value (setupStandardMuttDirs Samples.home (Some "")
                     Samples.empty_dir)) as [r|e] eqn:Hr;
    [|vm_compute in Hr; discriminate Hr].
  destruct (setupStandardMuttDirs_result Samples.home (Some "")
              Samples.empty_dir r Hr) as (-> & _).
  reflexivity.
Defined.

Lemma ensureDirectoriesFromPaths_created_witness :
  let o := ensureDirectoriesFromPaths Samples.home
             [("accountMuttrc", "~/.config/mutt/accounts/a.muttrc");
              ("MAINMUTTRC", "~/.config/mutt/muttrc");
              ("cache", "~/.config/mutt")]
             Samples.empty_dir in
  value o
    = Ok ["/home/user/.config/mutt/accounts"; "/home/user/.config/mutt"] /\
  trace o
    = [Mkdir "/home/user/.config/mutt/accounts"; Mkdir "/home/user/.config/mutt"].
Proof.
  assert (value (ensureDirectoriesFromPaths Samples.home
                   [("accountMuttrc", "~/.config/mutt/accounts/a.muttrc");
                    ("MAINMUTTRC", "~/.config/mutt/muttrc");
                    ("cache", "~/.config/mutt")]
                   Samples.empty_dir)
          = Ok ["/home/user/.config/mutt/accounts"; "/home/user/.config/mutt"])
    as Hc by (vm_compute; reflexivity).
  split; [exact Hc|].
  destruct (ensureDirectoriesFromPaths_created Samples.home _ _ _ eq_refl Hc)
    as (_ & _ & Htrace).
  exact Htrace.
Defined.
